(** * Scalar expression evaluators and the sort operator's expression set

    A shallow embedding of
      - be/src/exprs/scalar-expr-evaluator.h (the evaluator's data, its
        inline accessor [fn_context] and the documented interface), and
      - the implementation file of [SortExecExprs] (Init, Prepare, Open,
        Close),
      - util/condition-variable.h (the waiter count of ConditionVariable),
    with the evaluator operations whose bodies are not among the sources
    modelled from the specification.

    Pointers are addresses ([nat]) into an object store; C++ out-parameters
    become results; [RETURN_IF_ERROR] is a monadic short cut on [Status]. *)

From Stdlib Require Import ZArith.
From stdpp Require Import gmap strings list.

Local Open Scope Z_scope.

(* ===================================================================== *)
(** ** Status and the values of scalar expressions                        *)
(* ===================================================================== *)

(** common/status.h: either OK or an error carrying a message. *)
Inductive Status : Type :=
| OK
| Error (msg : string).

#[global] Instance Status_eq_dec : EqDecision Status.
Proof. solve_decision. Defined.

(** The scalar types for which the evaluator has a [Get*Val] function
    (scalar-expr-evaluator.h, lines 130-140). *)
Inductive PrimitiveType : Type :=
| TYPE_BOOLEAN | TYPE_TINYINT | TYPE_SMALLINT | TYPE_INT | TYPE_BIGINT
| TYPE_FLOAT | TYPE_DOUBLE | TYPE_STRING | TYPE_COLLECTION
| TYPE_TIMESTAMP | TYPE_DECIMAL.

(** udf.h [AnyVal]: a null indicator and the bits of the value. *)
Record AnyVal : Type := mkAnyVal {
  is_null : bool;
  val : Z
}.

(** The defined null/zero value a failed evaluation yields. *)
Definition null_val : AnyVal := {| is_null := true; val := 0 |}.

(** A row gives access to its column slots. *)
Definition TupleRow : Type := list AnyVal.

(** Identities of the external collaborators that are only passed around. *)
Definition MemPool : Type := nat.
Definition MemTracker : Type := nat.
Definition RowDescriptor : Type := nat.

(** The runtime-state handle; of its contents only the pool that clones
    made on its behalf allocate from is modelled. *)
Record RuntimeState : Type := mkRuntimeState {
  state_mem_pool : MemPool
}.

(* ===================================================================== *)
(** ** The expression tree (external, immutable)                          *)
(* ===================================================================== *)

(** What a node's own computation yields once its children are known. *)
Inductive Outcome : Type :=
| Success (v : AnyVal)
| Failure (msg : string).

(** Modelled from the spec: class ScalarExpr, of which the sources only
    have the forward declaration.  A node knows its type, the index of its
    FunctionContext ([-1] when it needs none), the range
    [[fn_ctx_idx_start_, fn_ctx_idx_end_)] of its subtree (header, lines
    52-55), whether it is provably constant, its type-specific evaluate
    primitive, the status of binding it to a row layout, and its
    children. *)
#[local] Unset Elimination Schemes.
Inductive ScalarExpr : Type := mkScalarExpr {
  type_ : PrimitiveType;
  fn_ctx_idx_ : Z;
  fn_ctx_idx_start_ : Z;
  fn_ctx_idx_end_ : Z;
  is_constant_ : bool;
  compute_ : PrimitiveType -> option TupleRow -> list AnyVal -> Outcome;
  prepare_ : RowDescriptor -> Status;
  children_ : list ScalarExpr
}.
#[local] Set Elimination Schemes.

(** All nodes of a tree, depth-first, a node before its children. *)
Fixpoint nodes (e : ScalarExpr) : list ScalarExpr :=
  match e with
  | mkScalarExpr _ _ _ _ _ _ _ cs => e :: flat_map nodes cs
  end.

(* ===================================================================== *)
(** ** FunctionContext and the evaluator                                  *)
(* ===================================================================== *)

(** Modelled from the spec: FunctionContext (udf/udf.h is not among the
    sources).  The fragment-scope part is shared by reference: a context
    holds the address of the state.  The thread-scope part is private and
    held by value: the scratch allocator handle, the recorded error and
    whether the context was released. *)
Record FunctionContext : Type := mkFunctionContext {
  fragment_state_ : nat;
  ctx_pool_ : MemPool;
  error_msg_ : option string;
  ctx_closed_ : bool
}.

(** Fragment-scope state of one context: initialised by Open, which also
    caches the node's value when the node is constant. *)
Record FragmentState : Type := mkFragmentState {
  frag_opened : bool;
  constant_val : option AnyVal
}.

(** scalar-expr-evaluator.h, lines 188-221: the evaluator's members.
    [fn_ctxs_ptr_] is the same array as [fn_ctxs_] and is left out. *)
Record ScalarExprEvaluator : Type := mkScalarExprEvaluator {
  fn_ctxs_ : list FunctionContext;
  mem_pool_ : option MemPool;
  root_ : ScalarExpr;
  result_ : option AnyVal;
  is_clone_ : bool;
  initialized_ : bool;
  opened_ : bool;
  closed_ : bool;
  output_scale_ : Z
}.

(** Lines 166-171: the public accessors. *)
Definition output_scale (ev : ScalarExprEvaluator) : Z := output_scale_ ev.
Definition root (ev : ScalarExprEvaluator) : ScalarExpr := root_ ev.
Definition opened (ev : ScalarExprEvaluator) : bool := opened_ ev.
Definition closed (ev : ScalarExprEvaluator) : bool := closed_ ev.
Definition is_clone (ev : ScalarExprEvaluator) : bool := is_clone_ ev.
Definition mem_pool (ev : ScalarExprEvaluator) : option MemPool := mem_pool_ ev.

(** *** fn_context (lines 227-231)

    [i] is an [int]; [fn_ctxs_.size()] is a [size_t], so the comparison of
    [DCHECK_LT] and the subscript both convert [i] to [size_t]. *)
Definition INT_MIN : Z := - 2 ^ 31.
Definition INT_MAX : Z := 2 ^ 31 - 1.
Definition is_int (i : Z) : Prop := INT_MIN <= i <= INT_MAX.

Definition to_size_t (i : Z) : Z := i mod 2 ^ 64.

Definition DCHECK_GE (a b : Z) : bool := b <=? a.
Definition DCHECK_LT (a b : Z) : bool := a <? b.

(** The outcome of an access guarded by debug assertions. *)
Inductive Checked (A : Type) : Type :=
| Returned (a : A)
| DCheckFailed
| OutOfBounds.
Arguments Returned {A} a.
Arguments DCheckFailed {A}.
Arguments OutOfBounds {A}.

Definition fn_context (ev : ScalarExprEvaluator) (i : Z) : Checked FunctionContext :=
  if negb (DCHECK_GE i 0) then DCheckFailed
  else if negb (DCHECK_LT (to_size_t i) (Z.of_nat (length (fn_ctxs_ ev)))) then DCheckFailed
  else match fn_ctxs_ ev !! Z.to_nat (to_size_t i) with
       | Some c => Returned c
       | None => OutOfBounds
       end.

(* ===================================================================== *)
(** ** The object store and the effects of the code                       *)
(* ===================================================================== *)

(** The calls made on single evaluators, in the order they are made. *)
Inductive Call : Type :=
| CallPrepare (p : nat) (row_desc : RowDescriptor) (tracker : MemTracker)
| CallOpen (p : nat)
| CallClone (p : nat)
| CallClose (p : nat).

#[global] Instance Call_eq_dec : EqDecision Call.
Proof. solve_decision. Defined.

(** Everything an operation can read or change: the evaluators living in
    the object pool (by address), the fragment-scope states (by address),
    the record of calls, and the number of constant sub-expressions
    computed so far. *)
Record World : Type := mkWorld {
  objects : gmap nat ScalarExprEvaluator;
  fragments : gmap nat FragmentState;
  calls : list Call;
  const_evals : nat
}.

(** An operation either completes with a value and a new world, or faults
    (dereferences an address that holds no evaluator, or fails a debug
    assertion). *)
Inductive Result (A : Type) : Type :=
| Done (a : A) (w : World)
| Fault.
Arguments Done {A} a w.
Arguments Fault {A}.

Definition M (A : Type) : Type := World -> Result A.

Definition ret {A} (a : A) : M A := fun w => Done a w.

Definition bind {A B} (m : M A) (k : A -> M B) : M B :=
  fun w => match m w with
           | Done a w' => k a w'
           | Fault => Fault
           end.

Definition fault {A} : M A := fun _ => Fault.

Declare Scope eff_scope.
Delimit Scope eff_scope with eff.
Notation "'do' x <- m ; k" := (bind m (fun x => k))
  (at level 10, x name, m at level 100, k at level 200) : eff_scope.
Notation "'do' ' pat <- m ; k" := (bind m (fun x => match x with pat => k end))
  (at level 10, pat pattern, m at level 100, k at level 200) : eff_scope.
Notation "m ;; k" := (bind m (fun _ => k))
  (at level 100, k at level 200, right associativity) : eff_scope.

(** common/status.h: [RETURN_IF_ERROR(stmt)] leaves the enclosing function
    with the status of [stmt] unless that status is OK. *)
Definition RETURN_IF_ERROR (m : M Status) (k : M Status) : M Status :=
  bind m (fun st => match st with OK => k | Error _ => ret st end).

Notation "'RETURN_IF_ERROR!' m ; k" := (RETURN_IF_ERROR m k)
  (at level 10, m at level 100, k at level 200) : eff_scope.

Open Scope eff_scope.

Definition deref (p : nat) : M ScalarExprEvaluator :=
  fun w => match objects w !! p with
           | Some ev => Done ev w
           | None => Fault
           end.

Definition store (p : nat) (ev : ScalarExprEvaluator) : M unit :=
  fun w => Done tt (mkWorld (<[p := ev]> (objects w)) (fragments w) (calls w) (const_evals w)).

Definition record (c : Call) : M unit :=
  fun w => Done tt (mkWorld (objects w) (fragments w) (calls w ++ [c]) (const_evals w)).

(** [pool->Add(new ...)]: a new object gets an address no object has. *)
Definition alloc (ev : ScalarExprEvaluator) : M nat :=
  fun w => let p := fresh (dom (objects w)) in
           Done p (mkWorld (<[p := ev]> (objects w)) (fragments w) (calls w) (const_evals w)).

Definition alloc_fragment (fs : FragmentState) : M nat :=
  fun w => let a := fresh (dom (fragments w)) in
           Done a (mkWorld (objects w) (<[a := fs]> (fragments w)) (calls w) (const_evals w)).

(* ===================================================================== *)
(** ** Operations of a single evaluator                                   *)
(* ===================================================================== *)

Module Evaluator.

(** The constructor (line 223) and the member initialisers of lines
    195-221: no contexts yet, all flags false, no output scale. *)
Definition new_evaluator (root : ScalarExpr) (mem_pool : option MemPool) : ScalarExprEvaluator :=
  {| fn_ctxs_ := []; mem_pool_ := mem_pool; root_ := root; result_ := None;
     is_clone_ := false; initialized_ := false; opened_ := false;
     closed_ := false; output_scale_ := -1 |}.

Definition set_fn_ctxs (ev : ScalarExprEvaluator) (ctxs : list FunctionContext) : ScalarExprEvaluator :=
  {| fn_ctxs_ := ctxs; mem_pool_ := mem_pool_ ev; root_ := root_ ev;
     result_ := result_ ev; is_clone_ := is_clone_ ev;
     initialized_ := initialized_ ev; opened_ := opened_ ev;
     closed_ := closed_ ev; output_scale_ := output_scale_ ev |}.

Definition set_opened (ev : ScalarExprEvaluator) : ScalarExprEvaluator :=
  {| fn_ctxs_ := fn_ctxs_ ev; mem_pool_ := mem_pool_ ev; root_ := root_ ev;
     result_ := result_ ev; is_clone_ := is_clone_ ev;
     initialized_ := initialized_ ev; opened_ := true;
     closed_ := closed_ ev; output_scale_ := output_scale_ ev |}.

Definition set_closed (ev : ScalarExprEvaluator) (ctxs : list FunctionContext) : ScalarExprEvaluator :=
  {| fn_ctxs_ := ctxs; mem_pool_ := mem_pool_ ev; root_ := root_ ev;
     result_ := result_ ev; is_clone_ := is_clone_ ev;
     initialized_ := initialized_ ev; opened_ := opened_ ev;
     closed_ := true; output_scale_ := output_scale_ ev |}.

(** Fresh thread-scope state around a given fragment-scope state. *)
Definition new_context (fragment : nat) (pool : MemPool) : FunctionContext :=
  {| fragment_state_ := fragment; ctx_pool_ := pool; error_msg_ := None;
     ctx_closed_ := false |}.

(** Modelled from the spec: FunctionContext::SetError, the error channel
    of per-row evaluation.  A context keeps the first error recorded on
    it. *)
Definition SetError (msg : string) (c : FunctionContext) : FunctionContext :=
  match error_msg_ c with
  | Some _ => c
  | None => {| fragment_state_ := fragment_state_ c; ctx_pool_ := ctx_pool_ c;
               error_msg_ := Some msg; ctx_closed_ := ctx_closed_ c |}
  end.

Definition release_context (c : FunctionContext) : FunctionContext :=
  {| fragment_state_ := fragment_state_ c; ctx_pool_ := ctx_pool_ c;
     error_msg_ := error_msg_ c; ctx_closed_ := true |}.

(** The result of evaluating a sub-expression: its value, the evaluator
    with the errors recorded so far, and (for the statements below) the
    failures that occurred, as context index and message, in order. *)
Definition Evaluation : Type := AnyVal * ScalarExprEvaluator * list (Z * string).

(** Modelled from the spec: the per-row evaluation of a (sub-)expression,
    whose code lives in the expression nodes (not among the sources).  The
    children are evaluated left to right, each by the primitive of its own
    type; then the node's primitive runs.  A failing node records the
    error on its own context, found through [fn_context], and yields
    [null_val]; evaluation itself never yields an error. [None] stands for
    a failed bounds assertion of [fn_context]. *)
Fixpoint eval (e : ScalarExpr) (t : PrimitiveType) (row : option TupleRow)
    (ev : ScalarExprEvaluator) {struct e} : option Evaluation :=
  match e with
  | mkScalarExpr _ idx _ _ _ compute _ cs =>
    let fix eval_children (cs : list ScalarExpr) (ev : ScalarExprEvaluator)
        : option (list AnyVal * ScalarExprEvaluator * list (Z * string)) :=
      match cs with
      | [] => Some ([], ev, [])
      | c :: cs' =>
        match eval c (type_ c) row ev with
        | None => None
        | Some (v, ev1, log1) =>
          match eval_children cs' ev1 with
          | None => None
          | Some (vs, ev2, log2) => Some (v :: vs, ev2, log1 ++ log2)
          end
        end
      end in
    match eval_children cs ev with
    | None => None
    | Some (args, ev1, log) =>
      match compute t row args with
      | Success v => Some (v, ev1, log)
      | Failure msg =>
        match fn_context ev1 idx with
        | Returned c =>
          Some (null_val,
                set_fn_ctxs ev1 (<[Z.to_nat (to_size_t idx) := SetError msg c]> (fn_ctxs_ ev1)),
                log ++ [(idx, msg)])
        | _ => None
        end
      end
    end
  end.

(** The children loop of [eval], as a function of its own. *)
Fixpoint eval_children (cs : list ScalarExpr) (row : option TupleRow)
    (ev : ScalarExprEvaluator)
    : option (list AnyVal * ScalarExprEvaluator * list (Z * string)) :=
  match cs with
  | [] => Some ([], ev, [])
  | c :: cs' =>
    match eval c (type_ c) row ev with
    | None => None
    | Some (v, ev1, log1) =>
      match eval_children cs' row ev1 with
      | None => None
      | Some (vs, ev2, log2) => Some (v :: vs, ev2, log1 ++ log2)
      end
    end
  end.

(** *** GetError (line 144)

    Modelled from the spec: the body is not among the sources.  The
    defaults of the declaration are [start_idx = 0] and [end_idx = -1],
    the latter standing for the end of the context array.  The loop
    returns the error of the first context in the range that has one. *)
Fixpoint GetError_loop (ev : ScalarExprEvaluator) (idx : Z) (n : nat) : Status :=
  match n with
  | O => OK
  | S n' =>
    match fn_context ev idx with
    | Returned c =>
      match error_msg_ c with
      | Some msg => Error msg
      | None => GetError_loop ev (idx + 1) n'
      end
    | _ => GetError_loop ev (idx + 1) n'
    end
  end.

Definition GetError (ev : ScalarExprEvaluator) (start_idx end_idx : Z) : Status :=
  let end_idx := if end_idx =? -1 then Z.of_nat (length (fn_ctxs_ ev)) else end_idx in
  GetError_loop ev start_idx (Z.to_nat (end_idx - start_idx)).

(** *** Allocation of the contexts (CreateFnCtxs, lines 233-235)

    Modelled from the spec: the walk is depth-first and allocates one
    FunctionContext, with fragment-scope state of its own, for every node
    that needs one. *)
Definition needs_context (e : ScalarExpr) : bool := negb (fn_ctx_idx_ e =? -1).

Fixpoint CreateFnCtxs_loop (ns : list ScalarExpr) (pool : MemPool) : M (list FunctionContext) :=
  match ns with
  | [] => ret []
  | n :: ns' =>
    if needs_context n then
      do a <- alloc_fragment {| frag_opened := false; constant_val := None |};
      do rest <- CreateFnCtxs_loop ns' pool;
      ret (new_context a pool :: rest)
    else CreateFnCtxs_loop ns' pool
  end.

Definition CreateFnCtxs (expr : ScalarExpr) (pool : MemPool) : M (list FunctionContext) :=
  CreateFnCtxs_loop (nodes expr) pool.

(** *** Prepare

    Modelled from the spec: binding an evaluator to a row layout, as the
    sort operator's Prepare asks for; the evaluator gets its pool and its
    contexts, and the status is that of binding the tree to the layout. *)
Definition Prepare (p : nat) (state : RuntimeState) (row_desc : RowDescriptor)
    (tracker : MemTracker) : M Status :=
  do ev <- deref p;
  record (CallPrepare p row_desc tracker) ;;
  do ctxs <- CreateFnCtxs (root_ ev) tracker;
  store p {| fn_ctxs_ := ctxs; mem_pool_ := Some tracker; root_ := root_ ev;
             result_ := result_ ev; is_clone_ := is_clone_ ev;
             initialized_ := true; opened_ := opened_ ev;
             closed_ := closed_ ev; output_scale_ := output_scale_ ev |} ;;
  ret (prepare_ (root_ ev) row_desc).

(** *** Open (lines 74-78)

    Modelled from the spec: idempotent; the first call initialises the
    fragment-scope state of every context and evaluates, without a row,
    every constant sub-expression that owns a context, caching the value
    in that state; later calls do nothing.  An error recorded while the
    constants are computed is the status of Open. *)
Definition set_fragment (a : nat) (fs : FragmentState) : M unit :=
  fun w => Done tt (mkWorld (objects w) (<[a := fs]> (fragments w)) (calls w) (const_evals w)).

Definition count_const_eval : M unit :=
  fun w => Done tt (mkWorld (objects w) (fragments w) (calls w) (S (const_evals w))).

Fixpoint open_nodes (ns : list ScalarExpr) (ev : ScalarExprEvaluator) : M ScalarExprEvaluator :=
  match ns with
  | [] => ret ev
  | n :: ns' =>
    if needs_context n then
      match fn_context ev (fn_ctx_idx_ n) with
      | Returned c =>
        if is_constant_ n then
          match eval n (type_ n) None ev with
          | Some (v, ev', _) =>
            count_const_eval ;;
            set_fragment (fragment_state_ c) {| frag_opened := true; constant_val := Some v |} ;;
            open_nodes ns' ev'
          | None => fault
          end
        else
          set_fragment (fragment_state_ c) {| frag_opened := true; constant_val := None |} ;;
          open_nodes ns' ev
      | _ => fault
      end
    else open_nodes ns' ev
  end.

Definition Open (p : nat) (state : RuntimeState) : M Status :=
  do ev <- deref p;
  record (CallOpen p) ;;
  if opened_ ev then ret OK
  else
    do ev' <- open_nodes (nodes (root_ ev)) (set_opened ev);
    store p ev' ;;
    ret (GetError ev' 0 (-1)).

(** *** Clone (lines 92-103)

    Modelled from the spec: requires the source opened, otherwise fails
    with a precondition error; the copy has one context per context of
    the source, with the same fragment-scope state (by reference) and
    fresh thread-scope state from [mem_pool]; it is a clone and counts as
    opened. *)
Definition clone_precondition_error : Status :=
  Error "Clone() requires Open() to have been called".

Definition make_clone (ev : ScalarExprEvaluator) (mem_pool : MemPool) : ScalarExprEvaluator :=
  {| fn_ctxs_ := map (fun c => new_context (fragment_state_ c) mem_pool) (fn_ctxs_ ev);
     mem_pool_ := Some mem_pool; root_ := root_ ev; result_ := None;
     is_clone_ := true; initialized_ := true; opened_ := true;
     closed_ := false; output_scale_ := output_scale_ ev |}.

Definition Clone (p : nat) (state : RuntimeState) (mem_pool : MemPool)
    : M (Status * option nat) :=
  do ev <- deref p;
  record (CallClone p) ;;
  if negb (opened_ ev) then ret (clone_precondition_error, None)
  else
    do p' <- alloc (make_clone ev mem_pool);
    ret (OK, Some p').

(** *** Close (lines 84-86)

    Modelled from the spec: no effect if already closed; otherwise releases
    the thread-scope state of this evaluator's contexts and, for an
    evaluator that is not a clone, the fragment-scope state it owns.
    Never fails. *)
Definition release_fragments (addrs : list nat) : M unit :=
  fun w => Done tt (mkWorld (objects w) (foldr delete (fragments w) addrs)
                            (calls w) (const_evals w)).

Definition Close (p : nat) (state : RuntimeState) : M unit :=
  do ev <- deref p;
  record (CallClose p) ;;
  if closed_ ev then ret tt
  else
    (if is_clone_ ev then ret tt
     else release_fragments (map fragment_state_ (fn_ctxs_ ev))) ;;
    store p (set_closed ev (map release_context (fn_ctxs_ ev))).

(** *** Get*Val (lines 128-140)

    Modelled from the spec: dispatches to the root's primitive for the
    requested type.  Open must have completed before. *)
Definition GetVal (t : PrimitiveType) (p : nat) (row : TupleRow) : M AnyVal :=
  do ev <- deref p;
  if negb (opened_ ev) then fault
  else
    match eval (root_ ev) t (Some row) ev with
    | Some (v, ev', _) => store p ev' ;; ret v
    | None => fault
    end.

Definition GetBooleanVal := GetVal TYPE_BOOLEAN.
Definition GetTinyIntVal := GetVal TYPE_TINYINT.
Definition GetSmallIntVal := GetVal TYPE_SMALLINT.
Definition GetBigIntVal := GetVal TYPE_BIGINT.
Definition GetFloatVal := GetVal TYPE_FLOAT.
Definition GetDoubleVal := GetVal TYPE_DOUBLE.
Definition GetStringVal := GetVal TYPE_STRING.
Definition GetCollectionVal := GetVal TYPE_COLLECTION.
Definition GetTimestampVal := GetVal TYPE_TIMESTAMP.
Definition GetDecimalVal := GetVal TYPE_DECIMAL.

End Evaluator.

(* ===================================================================== *)
(** ** The list forms used by the sort operator                           *)
(* ===================================================================== *)

(** Modelled from the spec: the static helpers of ExprContext
    (exprs/expr-context.h is not among the sources), the batched-list
    forms of the evaluator's lifecycle operations. *)
Module ExprContext.

(** One new evaluator per expression, appended to [ctxs]. Returns void
    in the code, so it cannot report a failure. *)
Fixpoint Create (exprs : list ScalarExpr) (ctxs : list nat) : M (list nat) :=
  match exprs with
  | [] => ret ctxs
  | e :: exprs' =>
    do p <- alloc (Evaluator.new_evaluator e None);
    Create exprs' (ctxs ++ [p])
  end.

Fixpoint Prepare (ctxs : list nat) (state : RuntimeState) (row_desc : RowDescriptor)
    (tracker : MemTracker) : M Status :=
  match ctxs with
  | [] => ret OK
  | p :: ctxs' =>
    RETURN_IF_ERROR! Evaluator.Prepare p state row_desc tracker;
    Prepare ctxs' state row_desc tracker
  end.

Fixpoint Open (ctxs : list nat) (state : RuntimeState) : M Status :=
  match ctxs with
  | [] => ret OK
  | p :: ctxs' =>
    RETURN_IF_ERROR! Evaluator.Open p state;
    Open ctxs' state
  end.

Fixpoint Close (ctxs : list nat) (state : RuntimeState) : M unit :=
  match ctxs with
  | [] => ret tt
  | p :: ctxs' => Evaluator.Close p state ;; Close ctxs' state
  end.

Fixpoint Clone (ctxs : list nat) (state : RuntimeState) (new_ctxs : list nat)
    : M (Status * list nat) :=
  match ctxs with
  | [] => ret (OK, new_ctxs)
  | p :: ctxs' =>
    do r <- Evaluator.Clone p state (state_mem_pool state);
    match r with
    | (OK, Some p') => Clone ctxs' state (new_ctxs ++ [p'])
    | (OK, None) => fault
    | (Error msg, _) => ret (Error msg, new_ctxs)
    end
  end.

(** The clones are made only when [new_ctxs] holds none yet. *)
Definition CloneIfNotExists (ctxs : list nat) (state : RuntimeState)
    (new_ctxs : list nat) : M (Status * list nat) :=
  match new_ctxs with
  | [] => Clone ctxs state new_ctxs
  | _ :: _ => ret (OK, new_ctxs)
  end.

End ExprContext.

(* ===================================================================== *)
(** ** SortExecExprs                                                      *)
(* ===================================================================== *)

(** The members the implementation file uses (exec/sort-exec-exprs.h is
    not among the sources): three vectors of evaluator pointers and the
    flag. *)
Record SortExecExprs : Type := mkSortExecExprs {
  lhs_ordering_expr_ctxs_ : list nat;
  rhs_ordering_expr_ctxs_ : list nat;
  sort_tuple_slot_expr_ctxs_ : list nat;
  materialize_tuple_ : bool
}.

Module SortExec.

Definition set_lhs (this : SortExecExprs) (l : list nat) : SortExecExprs :=
  {| lhs_ordering_expr_ctxs_ := l;
     rhs_ordering_expr_ctxs_ := rhs_ordering_expr_ctxs_ this;
     sort_tuple_slot_expr_ctxs_ := sort_tuple_slot_expr_ctxs_ this;
     materialize_tuple_ := materialize_tuple_ this |}.

Definition set_rhs (this : SortExecExprs) (l : list nat) : SortExecExprs :=
  {| lhs_ordering_expr_ctxs_ := lhs_ordering_expr_ctxs_ this;
     rhs_ordering_expr_ctxs_ := l;
     sort_tuple_slot_expr_ctxs_ := sort_tuple_slot_expr_ctxs_ this;
     materialize_tuple_ := materialize_tuple_ this |}.

Definition set_sort_tuple_slot (this : SortExecExprs) (l : list nat) : SortExecExprs :=
  {| lhs_ordering_expr_ctxs_ := lhs_ordering_expr_ctxs_ this;
     rhs_ordering_expr_ctxs_ := rhs_ordering_expr_ctxs_ this;
     sort_tuple_slot_expr_ctxs_ := l;
     materialize_tuple_ := materialize_tuple_ this |}.

Definition set_materialize_tuple (this : SortExecExprs) (b : bool) : SortExecExprs :=
  {| lhs_ordering_expr_ctxs_ := lhs_ordering_expr_ctxs_ this;
     rhs_ordering_expr_ctxs_ := rhs_ordering_expr_ctxs_ this;
     sort_tuple_slot_expr_ctxs_ := sort_tuple_slot_expr_ctxs_ this;
     materialize_tuple_ := b |}.

Section Init.

(** Serialized expressions and their deserialisation belong to the
    query plan; [CreateExprTrees] gives its status and the trees it
    built. *)
Variable TExpr : Type.
Variable CreateExprTrees : list TExpr -> Status * list ScalarExpr.

(** The fields of TSortInfo that Init reads; an unset optional field is
    [None]. *)
Record TSortInfo : Type := mkTSortInfo {
  ordering_exprs : list TExpr;
  sort_tuple_slot_exprs : option (list TExpr)
}.

(** Lines 31-48. A null [thrift_sort_tuple_slot_exprs] is [None]. *)
Definition Init_exprs (thrift_ordering_exprs : list TExpr)
    (thrift_sort_tuple_slot_exprs : option (list TExpr))
    (this : SortExecExprs) : M (Status * SortExecExprs) :=
  match CreateExprTrees thrift_ordering_exprs with
  | (Error msg, _) => ret (Error msg, this)
  | (OK, lhs_ordering_exprs) =>
    do lhs <- ExprContext.Create lhs_ordering_exprs (lhs_ordering_expr_ctxs_ this);
    let this := set_lhs this lhs in
    match thrift_sort_tuple_slot_exprs with
    | Some texprs =>
      let this := set_materialize_tuple this true in
      match CreateExprTrees texprs with
      | (Error msg, _) => ret (Error msg, this)
      | (OK, sort_tuple_slot_exprs) =>
        do m <- ExprContext.Create sort_tuple_slot_exprs (sort_tuple_slot_expr_ctxs_ this);
        ret (OK, set_sort_tuple_slot this m)
      end
    | None => ret (OK, set_materialize_tuple this false)
    end
  end.

(** Lines 25-29. *)
Definition Init (sort_info : TSortInfo) (this : SortExecExprs)
    : M (Status * SortExecExprs) :=
  Init_exprs (ordering_exprs sort_info) (sort_tuple_slot_exprs sort_info) this.

End Init.

(** Lines 50-55: both vectors are copied in. *)
Definition Init_ctxs (lhs_ordering_expr_ctxs rhs_ordering_expr_ctxs : list nat)
    (this : SortExecExprs) : M (Status * SortExecExprs) :=
  let this := set_lhs this lhs_ordering_expr_ctxs in
  let this := set_rhs this rhs_ordering_expr_ctxs in
  ret (OK, this).

(** Lines 57-66. *)
Definition Prepare (this : SortExecExprs) (state : RuntimeState)
    (child_row_desc output_row_desc : RowDescriptor)
    (expr_mem_tracker : MemTracker) : M Status :=
  RETURN_IF_ERROR!
    (if materialize_tuple_ this
     then ExprContext.Prepare (sort_tuple_slot_expr_ctxs_ this) state
            child_row_desc expr_mem_tracker
     else ret OK);
  RETURN_IF_ERROR!
    ExprContext.Prepare (lhs_ordering_expr_ctxs_ this) state
      output_row_desc expr_mem_tracker;
  ret OK.

(** Lines 68-76. [CloneIfNotExists] writes through the pointer to
    [rhs_ordering_expr_ctxs_] whatever status it returns. *)
Definition Open (this : SortExecExprs) (state : RuntimeState)
    : M (Status * SortExecExprs) :=
  do st <- (if materialize_tuple_ this
            then ExprContext.Open (sort_tuple_slot_expr_ctxs_ this) state
            else ret OK);
  match st with
  | Error _ => ret (st, this)
  | OK =>
    do st <- ExprContext.Open (lhs_ordering_expr_ctxs_ this) state;
    match st with
    | Error _ => ret (st, this)
    | OK =>
      do r <- ExprContext.CloneIfNotExists (lhs_ordering_expr_ctxs_ this) state
                (rhs_ordering_expr_ctxs_ this);
      match r with
      | (Error msg, rhs) => ret (Error msg, set_rhs this rhs)
      | (OK, rhs) => ret (OK, set_rhs this rhs)
      end
    end
  end.

(** Lines 78-84. *)
Definition Close (this : SortExecExprs) (state : RuntimeState) : M unit :=
  (if materialize_tuple_ this
   then ExprContext.Close (sort_tuple_slot_expr_ctxs_ this) state
   else ret tt) ;;
  ExprContext.Close (rhs_ordering_expr_ctxs_ this) state ;;
  ExprContext.Close (lhs_ordering_expr_ctxs_ this) state.

(** A sequence of lifecycle calls made on one expression set. *)
Inductive Op : Type := OpOpen | OpClose.

Fixpoint run (ops : list Op) (this : SortExecExprs) (state : RuntimeState)
    : M SortExecExprs :=
  match ops with
  | [] => ret this
  | OpOpen :: ops' =>
    do r <- Open this state;
    run ops' (snd r) state
  | OpClose :: ops' =>
    Close this state ;;
    run ops' this state
  end.

End SortExec.

(* ===================================================================== *)
(** ** ConditionVariable (util/condition-variable.h)                      *)
(* ===================================================================== *)

Module ConditionVariable.

Definition Thread : Type := nat.

(** The calls made on [cv_]. *)
Inductive PthreadCall : Type :=
| pthread_cond_init
| pthread_cond_destroy
| pthread_cond_wait (t : Thread)
| pthread_cond_timedwait (t : Thread)
| pthread_cond_signal
| pthread_cond_broadcast.

(** Which of the two waits a thread is executing. *)
Inductive WaitKind : Type := InWait | InTimedWait.

#[global] Instance WaitKind_eq_dec : EqDecision WaitKind.
Proof. solve_decision. Defined.

(** Where a thread that is executing Wait or TimedWait stands:
    - [Counted]: it has done [++num_waiters_] (line 39 or 48) and not yet
      called [pthread_cond_wait] or [pthread_cond_timedwait];
    - [Blocked]: it is inside that call (line 41 or 50), the mutex given
      up;
    - [Woken rc]: the call has returned [rc], the mutex taken again, and
      [--num_waiters_] (line 42 or 51) is still to be done. *)
Inductive Position : Type :=
| Counted (k : WaitKind)
| Blocked (k : WaitKind)
| Woken (k : WaitKind) (rc : Z).

Definition is_blocked (pos : Position) : bool :=
  match pos with
  | Blocked _ => true
  | _ => false
  end.

(** The object and what its methods depend on: the member [num_waiters_]
    (line 65); the threads that are executing Wait or TimedWait on this
    object, each with its position; the owner of the mutex of the lock
    passed to the waits (one mutex for all of them, as
    [pthread_cond_wait] requires); and the calls made on [cv_] so far. *)
Record State : Type := mkState {
  num_waiters_ : Z;
  inside : gmap Thread Position;
  mutex_owner : option Thread;
  pthread_calls : list PthreadCall
}.

(** The threads inside [pthread_cond_wait] or [pthread_cond_timedwait]. *)
Definition blocked (s : State) : gmap Thread Position :=
  filter (λ kv, is_blocked kv.2 = true) (inside s).

(** Line 33: the constructor. *)
Definition new : State :=
  {| num_waiters_ := 0; inside := ∅; mutex_owner := None;
     pthread_calls := [pthread_cond_init] |}.

(** Lines 38-39 and 47-48: [DCHECK(lock.owns_lock()); ++num_waiters_;].
    [None] is the failed DCHECK, or the overflow of the [int], which is
    undefined. *)
Definition enter_wait (k : WaitKind) (t : Thread) (s : State) : option State :=
  if decide (mutex_owner s = Some t) then
    if decide (num_waiters_ s = INT_MAX) then None
    else
      Some {| num_waiters_ := num_waiters_ s + 1;
              inside := <[t := Counted k]> (inside s);
              mutex_owner := mutex_owner s;
              pthread_calls := pthread_calls s |}
  else None.

(** Lines 40-41 and 49-50: the call of [pthread_cond_wait] or
    [pthread_cond_timedwait], which gives up the mutex and blocks the
    caller. *)
Definition call_pthread (k : WaitKind) (t : Thread) (s : State) : option State :=
  match inside s !! t with
  | Some (Counted k') =>
    if decide (k' = k) then
      Some {| num_waiters_ := num_waiters_ s;
              inside := <[t := Blocked k]> (inside s);
              mutex_owner := None;
              pthread_calls :=
                pthread_calls s ++ [match k with
                                    | InWait => pthread_cond_wait t
                                    | InTimedWait => pthread_cond_timedwait t
                                    end] |}
    else None
  | _ => None
  end.

(** Lines 41 and 50: the pthread call returns [rc], which it can do once
    the mutex is free (after a signal, a broadcast, a timeout or
    spuriously), holding the mutex again. *)
Definition return_pthread (k : WaitKind) (t : Thread) (rc : Z) (s : State) : option State :=
  match inside s !! t, mutex_owner s with
  | Some (Blocked k'), None =>
    if decide (k' = k) then
      Some {| num_waiters_ := num_waiters_ s;
              inside := <[t := Woken k rc]> (inside s);
              mutex_owner := Some t;
              pthread_calls := pthread_calls s |}
    else None
  | _, _ => None
  end.

(** Lines 42 and 51-52: [--num_waiters_], and the method returns; the
    result is [rc == 0], which TimedWait returns as [notified] and Wait
    does not compute. [None] also for the underflow of the [int]. *)
Definition leave_wait (k : WaitKind) (t : Thread) (s : State) : option (State * bool) :=
  match inside s !! t with
  | Some (Woken k' rc) =>
    if decide (k' = k) then
      if decide (num_waiters_ s = INT_MIN) then None
      else
        Some ({| num_waiters_ := num_waiters_ s - 1;
                 inside := delete t (inside s);
                 mutex_owner := mutex_owner s;
                 pthread_calls := pthread_calls s |}, rc =? 0)
    else None
  | _ => None
  end.

(** Wait (lines 37-43), statement by statement. *)
Definition Wait_increment : Thread → State → option State := enter_wait InWait.
Definition Wait_call : Thread → State → option State := call_pthread InWait.
Definition Wait_wake : Thread → Z → State → option State := return_pthread InWait.
Definition Wait_decrement (t : Thread) (s : State) : option State :=
  fst <$> leave_wait InWait t s.

(** TimedWait (lines 45-53), statement by statement. *)
Definition TimedWait_increment : Thread → State → option State := enter_wait InTimedWait.
Definition TimedWait_call : Thread → State → option State := call_pthread InTimedWait.
Definition TimedWait_wake : Thread → Z → State → option State := return_pthread InTimedWait.
Definition TimedWait_decrement : Thread → State → option (State * bool) :=
  leave_wait InTimedWait.

(** Line 55. *)
Definition NotifyOne (s : State) : State :=
  {| num_waiters_ := num_waiters_ s; inside := inside s;
     mutex_owner := mutex_owner s;
     pthread_calls := pthread_calls s ++ [pthread_cond_signal] |}.

(** Line 57. *)
Definition NotifyAll (s : State) : State :=
  {| num_waiters_ := num_waiters_ s; inside := inside s;
     mutex_owner := mutex_owner s;
     pthread_calls := pthread_calls s ++ [pthread_cond_broadcast] |}.

(** Lines 59-61: reads [num_waiters_], taking no lock. *)
Definition NotifyOneIfWaiting (s : State) : State :=
  if 0 <? num_waiters_ s then NotifyOne s else s.

(** What the threads using the object do, one step each: take or give
    back the mutex (a thread that is not executing a wait), execute the
    next statement of a wait, notify.  The notifications need no mutex
    and can come between any two statements of another thread's wait. *)
Inductive Event : Type :=
| Lock (t : Thread)
| Unlock (t : Thread)
| WaitIncrement (t : Thread)
| WaitCall (t : Thread)
| WaitWake (t : Thread) (rc : Z)
| WaitDecrement (t : Thread)
| TimedWaitIncrement (t : Thread)
| TimedWaitCall (t : Thread)
| TimedWaitWake (t : Thread) (rc : Z)
| TimedWaitDecrement (t : Thread)
| CallNotifyOne
| CallNotifyAll
| CallNotifyOneIfWaiting.

Definition step (e : Event) (s : State) : option State :=
  match e with
  | Lock t =>
    match mutex_owner s, inside s !! t with
    | None, None =>
      Some {| num_waiters_ := num_waiters_ s; inside := inside s;
              mutex_owner := Some t; pthread_calls := pthread_calls s |}
    | _, _ => None
    end
  | Unlock t =>
    match inside s !! t with
    | None =>
      if decide (mutex_owner s = Some t) then
        Some {| num_waiters_ := num_waiters_ s; inside := inside s;
                mutex_owner := None; pthread_calls := pthread_calls s |}
      else None
    | Some _ => None
    end
  | WaitIncrement t =>
    match inside s !! t with
    | None => Wait_increment t s
    | Some _ => None
    end
  | WaitCall t => Wait_call t s
  | WaitWake t rc => Wait_wake t rc s
  | WaitDecrement t => Wait_decrement t s
  | TimedWaitIncrement t =>
    match inside s !! t with
    | None => TimedWait_increment t s
    | Some _ => None
    end
  | TimedWaitCall t => TimedWait_call t s
  | TimedWaitWake t rc => TimedWait_wake t rc s
  | TimedWaitDecrement t => fst <$> TimedWait_decrement t s
  | CallNotifyOne => Some (NotifyOne s)
  | CallNotifyAll => Some (NotifyAll s)
  | CallNotifyOneIfWaiting => Some (NotifyOneIfWaiting s)
  end.

Fixpoint run (es : list Event) (s : State) : option State :=
  match es with
  | [] => Some s
  | e :: es' =>
    match step e s with
    | Some s' => run es' s'
    | None => None
    end
  end.

(** The counter is the number of threads executing a wait, and of these
    the ones that are not blocked are the owner of the mutex. *)
Definition counts_waiters (s : State) : Prop :=
  num_waiters_ s = Z.of_nat (size (inside s))
  ∧ (∀ t pos, inside s !! t = Some pos → is_blocked pos = false → mutex_owner s = Some t)
  ∧ (∀ t pos, inside s !! t = Some pos → mutex_owner s = Some t → is_blocked pos = false).

(** The owner of the mutex is executing a wait. *)
Definition owner_inside (s : State) : bool :=
  match mutex_owner s with
  | Some t =>
    match inside s !! t with
    | Some _ => true
    | None => false
    end
  | None => false
  end.

End ConditionVariable.

(* ===================================================================== *)
(** ** The vocabulary of the statements                                  *)
(* ===================================================================== *)

(** *** Addresses and worlds *)

(** An address is valid when an evaluator lives there. *)
Definition valid (w : World) (p : nat) : Prop := p ∈ dom (objects w).

(** No object of [w] is changed or removed in [w']. *)
Definition extends (w w' : World) : Prop :=
  ∀ q ev, objects w !! q = Some ev → objects w' !! q = Some ev.

(** *** Close *)

(** The lists Close walks through, in the order of the code. *)
Definition close_sequence (this : SortExecExprs) : list nat :=
  (if materialize_tuple_ this then sort_tuple_slot_expr_ctxs_ this else [])
  ++ rhs_ordering_expr_ctxs_ this ++ lhs_ordering_expr_ctxs_ this.

(** The order C1 is stated with: rhs, lhs, then materialization. *)
Definition close_sequence_claimed (this : SortExecExprs) : list nat :=
  rhs_ordering_expr_ctxs_ this ++ lhs_ordering_expr_ctxs_ this
  ++ (if materialize_tuple_ this then sort_tuple_slot_expr_ctxs_ this else []).

(** C1 in its original wording, at one expression set and world. *)
Definition Close_order_claimed (this : SortExecExprs) (state : RuntimeState)
    (w : World) : Prop :=
  ∀ w', SortExec.Close this state w = Done tt w' →
        calls w' = calls w ++ map CallClose (close_sequence_claimed this).

(** *** Prepare *)

(** Two worlds hold the same expression trees at the same addresses. *)
Definition same_roots (w w' : World) : Prop :=
  ∀ q, root_ <$> objects w' !! q = root_ <$> objects w !! q.

(** The status of binding the evaluator at [p] to the layout [rd]. *)
Definition binding_status (w : World) (p : nat) (rd : RowDescriptor) : Status :=
  match objects w !! p with
  | Some ev => prepare_ (root_ ev) rd
  | None => OK
  end.

(** The bindings Prepare asks for, in order: each evaluator with the
    layout it is bound to. *)
Definition prepare_plan (this : SortExecExprs) (child_row_desc output_row_desc : RowDescriptor)
    : list (nat * RowDescriptor) :=
  (if materialize_tuple_ this
   then map (λ p, (p, child_row_desc)) (sort_tuple_slot_expr_ctxs_ this)
   else [])
  ++ map (λ p, (p, output_row_desc)) (lhs_ordering_expr_ctxs_ this).

(** The call that makes one binding of the plan. *)
Definition prepare_call (tracker : MemTracker) (b : nat * RowDescriptor) : Call :=
  CallPrepare (fst b) (snd b) tracker.

(** One loop over a plan, stopping at the first binding that fails. *)
Fixpoint prepare_all (plan : list (nat * RowDescriptor)) (state : RuntimeState)
    (tracker : MemTracker) : M Status :=
  match plan with
  | [] => ret OK
  | b :: plan' =>
    RETURN_IF_ERROR! Evaluator.Prepare (fst b) state (snd b) tracker;
    prepare_all plan' state tracker
  end.

(** Every binding of a list succeeds in world [w]. *)
Definition all_bind (w : World) (plan : list (nat * RowDescriptor)) : Prop :=
  Forall (λ b, binding_status w (fst b) (snd b) = OK) plan.

(** *** Expression trees *)

(** Induction over a tree with the hypothesis for every child. *)
Section ScalarExpr_induction.

Variable P : ScalarExpr → Prop.
Hypothesis step : ∀ t idx s e c f pr cs,
  Forall P cs → P (mkScalarExpr t idx s e c f pr cs).

Fixpoint ScalarExpr_tree_ind (e : ScalarExpr) : P e :=
  match e with
  | mkScalarExpr t idx s en c f pr cs =>
    step t idx s en c f pr cs
      ((fix all (l : list ScalarExpr) : Forall P l :=
          match l with
          | [] => List.Forall_nil P
          | x :: r => List.Forall_cons P x r (ScalarExpr_tree_ind x) (all r)
          end) cs)
  end.

End ScalarExpr_induction.

(** Evaluation changes nothing of an evaluator but the contents of its
    contexts; their number stays. *)
Definition only_ctxs_changed (ev ev' : ScalarExprEvaluator) : Prop :=
  ∃ ctxs, ev' = Evaluator.set_fn_ctxs ev ctxs ∧ length ctxs = length (fn_ctxs_ ev).

(** *** Open and Init *)

(** [q] is a clone, made during the step from [w] to [w'], of the opened
    evaluator at [p]. *)
Definition is_clone_of (state : RuntimeState) (w w' : World) (p q : nat) : Prop :=
  objects w !! q = None
  ∧ ∃ ev, objects w' !! p = Some ev ∧ opened_ ev = true
          ∧ objects w' !! q = Some (Evaluator.make_clone ev (state_mem_pool state)).

(** The evaluators Open opens. *)
Definition open_targets (this : SortExecExprs) : list nat :=
  (if materialize_tuple_ this then sort_tuple_slot_expr_ctxs_ this else [])
  ++ lhs_ordering_expr_ctxs_ this.

(** The calls of a successful Open, in the order of the code. *)
Definition open_sequence (this : SortExecExprs) : list Call :=
  map CallOpen (if materialize_tuple_ this then sort_tuple_slot_expr_ctxs_ this else [])
  ++ map CallOpen (lhs_ordering_expr_ctxs_ this)
  ++ match rhs_ordering_expr_ctxs_ this with
     | [] => map CallClone (lhs_ordering_expr_ctxs_ this)
     | _ :: _ => []
     end.

(** One call that Open makes on a single evaluator. *)
Inductive OpenStep : Type :=
| StepOpen (p : nat)
| StepClone (p : nat).

(** C2 in the claim's words, as a list of single-evaluator calls: open the
    materialization evaluators if materialize_tuple is set, then open the
    lhs evaluators, then clone the lhs evaluators, the last only when no
    rhs evaluators were supplied. *)
Definition open_plan (this : SortExecExprs) : list OpenStep :=
  map StepOpen (open_targets this)
  ++ match rhs_ordering_expr_ctxs_ this with
     | [] => map StepClone (lhs_ordering_expr_ctxs_ this)
     | _ :: _ => []
     end.

(** The calls of a plan made one after the other, until one returns an
    error, which is then the status of the whole; a clone made is appended
    to the rhs list. *)
Fixpoint run_open_plan (steps : list OpenStep) (state : RuntimeState)
    (this : SortExecExprs) : M (Status * SortExecExprs) :=
  match steps with
  | [] => ret (OK, this)
  | StepOpen p :: steps' =>
    do st <- Evaluator.Open p state;
    match st with
    | OK => run_open_plan steps' state this
    | Error _ => ret (st, this)
    end
  | StepClone p :: steps' =>
    do r <- Evaluator.Clone p state (state_mem_pool state);
    match r with
    | (OK, Some q) =>
      run_open_plan steps' state
        (SortExec.set_rhs this (rhs_ordering_expr_ctxs_ this ++ [q]))
    | (OK, None) => fault
    | (Error msg, _) => ret (Error msg, this)
    end
  end.

(** [p] holds, in [w'], a newly constructed evaluator for [e], at an
    address that held nothing in [w]. *)
Definition is_new_evaluator (w w' : World) (e : ScalarExpr) (p : nat) : Prop :=
  objects w !! p = None
  ∧ objects w' !! p = Some (Evaluator.new_evaluator e None).

(** *** Sequences of calls *)

(** The evaluator a call is made on. *)
Definition target (c : Call) : nat :=
  match c with
  | CallPrepare p _ _ => p
  | CallOpen p => p
  | CallClone p => p
  | CallClose p => p
  end.

(** The outcome of a run, with the materialization list replaced. *)
Definition with_materialization (m : list nat) (r : Result SortExecExprs)
    : Result SortExecExprs :=
  match r with
  | Done this w => Done (SortExec.set_sort_tuple_slot this m) w
  | Fault => Fault
  end.

(** *** The lifecycle *)

(** The lifecycle states of an evaluator. *)
Inductive Phase : Type := Created | Opened | Closed.

(** The lifecycle state the flags of lines 211-214 encode. *)
Definition phase (ev : ScalarExprEvaluator) : Phase :=
  if closed_ ev then Closed else if opened_ ev then Opened else Created.

(** Their order: Created, then Opened, then Closed. *)
Definition rank (ph : Phase) : nat :=
  match ph with Created => 0 | Opened => 1 | Closed => 2 end.

(** The operations that can be applied to an evaluator. *)
Inductive EvaluatorOp : Type :=
| DoPrepare (row_desc : RowDescriptor) (tracker : MemTracker)
| DoOpen
| DoClone (mem_pool : MemPool)
| DoGetVal (t : PrimitiveType) (row : TupleRow)
| DoClose.

Definition perform (op : EvaluatorOp) (p : nat) (state : RuntimeState) : M unit :=
  match op with
  | DoPrepare rd tracker => Evaluator.Prepare p state rd tracker ;; ret tt
  | DoOpen => Evaluator.Open p state ;; ret tt
  | DoClone mem_pool => Evaluator.Clone p state mem_pool ;; ret tt
  | DoGetVal t row => Evaluator.GetVal t p row ;; ret tt
  | DoClose => Evaluator.Close p state
  end.

(** No evaluator of [w] is lost or has gone back in its lifecycle. *)
Definition forward (w w' : World) : Prop :=
  ∀ q ev, objects w !! q = Some ev →
          ∃ ev', objects w' !! q = Some ev' ∧ (rank (phase ev) ≤ rank (phase ev'))%nat.

(** [w'] is [w] with one more call recorded and nothing else changed. *)
Definition only_records (c : Call) (w w' : World) : Prop :=
  w' = mkWorld (objects w) (fragments w) (calls w ++ [c]) (const_evals w).

(** *** The error channel *)

(** A node is sound for an evaluator with [n] contexts when it owns one of
    them, or needs none and has a primitive that cannot fail. *)
Definition owns_context_or_total (n : nat) (nd : ScalarExpr) : Prop :=
  (0 <= fn_ctx_idx_ nd < Z.of_nat n ∧ is_int (fn_ctx_idx_ nd))
  ∨ (fn_ctx_idx_ nd = -1
     ∧ ∀ t row args, ∃ v, compute_ nd t row args = Success v).

(** A tree is sound when all its nodes are. *)
Definition wf_tree (n : nat) (e : ScalarExpr) : Prop :=
  Forall (owns_context_or_total n) (nodes e).

(** A live evaluator whose tree is sound for the contexts it has. *)
Definition sound_at (w : World) (p : nat) : Prop :=
  ∃ ev, objects w !! p = Some ev ∧ wf_tree (length (fn_ctxs_ ev)) (root_ ev).










(** *** Composition of the lifecycle calls *)

(** The evaluator at [p] is live and opened. *)
Definition opened_at (w : World) (p : nat) : Prop :=
  ∃ ev, objects w !! p = Some ev ∧ opened_ ev = true.

(** The evaluator at [p] is live and closed. *)
Definition closed_at (w : World) (p : nat) : Prop :=
  ∃ ev, objects w !! p = Some ev ∧ closed_ ev = true.

(** [w] with more calls recorded and nothing else changed. *)
Definition record_all (cs : list Call) (w : World) : World :=
  mkWorld (objects w) (fragments w) (calls w ++ cs) (const_evals w).

(* ===================================================================== *)
(** ** Concrete expressions, evaluators and expression sets              *)
(* ===================================================================== *)

Module Examples.

(** A literal: constant, needs no context, cannot fail. *)
Definition literal (n : Z) : ScalarExpr :=
  mkScalarExpr TYPE_INT (-1) 0 0 true
    (fun _ _ _ => Success (mkAnyVal false n)) (fun _ => OK) [].

(** A reference to column [k] of the row; null without a row. *)
Definition slot_ref (k : nat) : ScalarExpr :=
  mkScalarExpr TYPE_INT (-1) 0 0 false
    (fun _ row _ => match row with
                    | Some r => Success (default null_val (r !! k))
                    | None => Success null_val
                    end)
    (fun _ => OK) [].

(** Integer division owning context [idx]; dividing by zero fails. *)
Definition divide (idx : Z) (const : bool) (a b : ScalarExpr) : ScalarExpr :=
  mkScalarExpr TYPE_INT idx idx (idx + 1) const
    (fun _ _ args =>
       match args with
       | [x; y] => if val y =? 0 then Failure "Divide by zero"
                   else Success (mkAnyVal false (val x / val y))
       | _ => Failure "wrong number of arguments"
       end)
    (fun _ => OK) [a; b].

(** An expression that binds to no row layout but layout [0]. *)
Definition picky_slot_ref : ScalarExpr :=
  mkScalarExpr TYPE_INT (-1) 0 0 false
    (fun _ _ _ => Success null_val)
    (fun rd => match rd with O => OK | S _ => Error "slot not in row" end) [].

Definition empty_world : World := mkWorld ∅ ∅ [] 0%nat.

Definition state0 : RuntimeState := mkRuntimeState 7%nat.

(** Three evaluators at addresses 0, 1, 2, not yet prepared. *)
Definition three_evaluators : World :=
  mkWorld (<[0%nat := Evaluator.new_evaluator (slot_ref 0) None]>
           (<[1%nat := Evaluator.new_evaluator (slot_ref 0) None]>
            (<[2%nat := Evaluator.new_evaluator (literal 3) None]> ∅)))
          ∅ [] 0%nat.

(** lhs = [0], rhs = [1], materialization = [2], flag set. *)
Definition materializing_set : SortExecExprs :=
  mkSortExecExprs [0%nat] [1%nat] [2%nat] true.

(** Evaluators 0 and 2 hold ordinary expressions; 1 holds one that binds
    to layout 0 only. *)
Definition picky_world : World :=
  mkWorld (<[0%nat := Evaluator.new_evaluator (slot_ref 0) None]>
           (<[1%nat := Evaluator.new_evaluator picky_slot_ref None]>
            (<[2%nat := Evaluator.new_evaluator (literal 3) None]> ∅)))
          ∅ [] 0%nat.

(** lhs = [0], no rhs yet, materialization = [2]. *)
Definition cloning_set : SortExecExprs := mkSortExecExprs [0%nat] [] [2%nat] true.

Definition opened_world : World :=
  match SortExec.Open cloning_set state0 three_evaluators with
  | Done _ w => w
  | Fault => empty_world
  end.

(** lhs = [0], rhs = [1], flag off; address 2 is in the (unused)
    materialization list. *)
Definition unmaterialized_set : SortExecExprs :=
  mkSortExecExprs [0%nat] [1%nat] [2%nat] false.

(** An evaluator with two contexts. *)
Definition two_context_evaluator : ScalarExprEvaluator :=
  {| fn_ctxs_ := [Evaluator.new_context 0 7%nat; Evaluator.new_context 1 7%nat];
     mem_pool_ := Some 7%nat; root_ := literal 1; result_ := None;
     is_clone_ := false; initialized_ := true; opened_ := true;
     closed_ := false; output_scale_ := -1 |}.

(** The world a computation ends in ([empty_world] on a fault). *)
Definition world_after {A} (m : M A) (w : World) : World :=
  match m w with
  | Done _ w' => w'
  | Fault => empty_world
  end.

(** One evaluator, at address 0, for the constant [6 / 3], prepared. *)
Definition constant_world : World :=
  world_after
    (do l <- ExprContext.Create
               [divide 0 true (literal 6) (literal 3)] [];
     ExprContext.Prepare l state0 1%nat 9%nat)
    empty_world.

Definition constant_world_opened : World :=
  world_after (Evaluator.Open 0 state0) constant_world.

(** Two prepared evaluators: a column reference at address 0 and the
    constant [6 / 0] at address 1. *)
Definition failing_constant_world : World :=
  world_after
    (do l <- ExprContext.Create
               [slot_ref 0; divide 0 true (literal 6) (literal 0)] [];
     ExprContext.Prepare l state0 1%nat 9%nat)
    empty_world.

(** lhs = [0; 1], no rhs, no materialization. *)
Definition failing_set : SortExecExprs := mkSortExecExprs [0%nat; 1%nat] [] [] false.







(** A deserialiser for the examples: a serialized expression is either a
    tree or malformed; the first malformed one fails the whole list. *)
Fixpoint deserialise (texprs : list (option ScalarExpr)) : Status * list ScalarExpr :=
  match texprs with
  | [] => (OK, [])
  | None :: _ => (Error "malformed expression", [])
  | Some e :: rest =>
    match deserialise rest with
    | (OK, es) => (OK, e :: es)
    | (Error msg, es) => (Error msg, e :: es)
    end
  end.

(** A newly constructed expression set. *)
Definition fresh_set : SortExecExprs := mkSortExecExprs [] [] [] false.

(** The world a failed Init of [fresh_set] leaves: the lhs evaluator is
    built, the materialization expressions are malformed. *)
Definition half_initialised_world : World :=
  world_after
    (SortExec.Init_exprs (option ScalarExpr) deserialise
       [Some (slot_ref 0)] (Some [None]) fresh_set)
    empty_world.

End Examples.

(* ===================================================================== *)
(** ** Facts about the effect primitives                                  *)
(* ===================================================================== *)

Lemma valid_lookup w p : valid w p ↔ is_Some (objects w !! p).
Proof. unfold valid. apply elem_of_dom. Qed.

Lemma dom_insert_valid (m : gmap nat ScalarExprEvaluator) p ev :
  p ∈ dom m → dom (<[p := ev]> m) = dom m.
Proof.
  intros Hp. rewrite dom_insert_L. apply subseteq_union_1_L.
  by apply singleton_subseteq_l.
Qed.

Ltac run_step :=
  unfold bind, deref, record, store, ret, fault, alloc, alloc_fragment,
    Evaluator.set_fragment, Evaluator.count_const_eval,
    Evaluator.release_fragments, RETURN_IF_ERROR in *; simpl in *.

(* ===================================================================== *)
(** ** fn_context                                                         *)
(* ===================================================================== *)

Lemma to_size_t_int i : is_int i → 0 <= i → to_size_t i = i.
Proof.
  unfold is_int, INT_MAX, to_size_t. intros [_ Hmax] H0.
  apply Z.mod_small. lia.
Qed.

Lemma fn_context_Returned ev i :
  is_int i → 0 <= i < Z.of_nat (length (fn_ctxs_ ev)) →
  ∃ c, fn_ctxs_ ev !! Z.to_nat i = Some c ∧ fn_context ev i = Returned c.
Proof.
  intros Hint [H0 Hlt]. unfold fn_context, DCHECK_GE, DCHECK_LT.
  rewrite (to_size_t_int i Hint H0).
  destruct (Z.leb_spec 0 i); [| lia]. destruct (Z.ltb_spec i (Z.of_nat (length (fn_ctxs_ ev)))); [| lia].
  simpl. destruct (lookup_lt_is_Some_2 (fn_ctxs_ ev) (Z.to_nat i)) as [c Hc]; [lia |].
  exists c. by rewrite Hc.
Qed.

(** C9: for an index [i] with [0 <= i < fn_ctxs_.size()], both bounds
    assertions of fn_context hold and it returns the [i]-th element of the
    context array; neither a failed assertion nor an access outside the
    array is possible. *)
Theorem fn_context_in_bounds ev i :
  is_int i → 0 <= i < Z.of_nat (length (fn_ctxs_ ev)) →
  DCHECK_GE i 0 = true
  ∧ DCHECK_LT (to_size_t i) (Z.of_nat (length (fn_ctxs_ ev))) = true
  ∧ (∃ c, fn_ctxs_ ev !! Z.to_nat i = Some c ∧ fn_context ev i = Returned c)
  ∧ fn_context ev i ≠ DCheckFailed
  ∧ fn_context ev i ≠ OutOfBounds.
Proof.
  intros Hint Hr.
  destruct (fn_context_Returned ev i Hint Hr) as (c & Hc & Hf).
  unfold DCHECK_GE, DCHECK_LT. rewrite (to_size_t_int i Hint (proj1 Hr)).
  split; [apply Z.leb_le; lia |]. split; [apply Z.ltb_lt; lia |].
  split; [eauto |]. rewrite Hf. split; discriminate.
Qed.

Lemma fn_context_in_bounds_witness :
  fn_context Examples.two_context_evaluator 1 = Returned (Evaluator.new_context 1 7%nat).
Proof.
  destruct (fn_context_in_bounds Examples.two_context_evaluator 1)
    as (_ & _ & (c & Hc & Hf) & _).
  - unfold is_int, INT_MIN, INT_MAX. lia.
  - simpl. lia.
  - rewrite Hf. simpl in Hc. congruence.
Defined.

(* ===================================================================== *)
(** ** Induction over expression trees, and the shape of [eval]           *)
(* ===================================================================== *)

(** [eval] is its children loop followed by the node's own computation. *)
Lemma eval_unfold e t row ev :
  Evaluator.eval e t row ev =
  match Evaluator.eval_children (children_ e) row ev with
  | None => None
  | Some (args, ev1, log) =>
    match compute_ e t row args with
    | Success v => Some (v, ev1, log)
    | Failure msg =>
      match fn_context ev1 (fn_ctx_idx_ e) with
      | Returned c =>
        Some (null_val,
              Evaluator.set_fn_ctxs ev1
                (<[Z.to_nat (to_size_t (fn_ctx_idx_ e)) := Evaluator.SetError msg c]> (fn_ctxs_ ev1)),
              log ++ [(fn_ctx_idx_ e, msg)])
      | _ => None
      end
    end
  end.
Proof.
  destruct e as [t0 idx s en c f pr cs]. simpl.
  match goal with
  | |- match ?a with _ => _ end = match ?b with _ => _ end =>
    assert (a = b) as ->; [| reflexivity]
  end.
  revert ev. induction cs as [| x cs IH]; intros ev; simpl; [reflexivity |].
  destruct (Evaluator.eval x (type_ x) row ev) as [[[v ev1] log1] |]; [| reflexivity].
  rewrite IH. reflexivity.
Qed.

Lemma only_ctxs_changed_refl ev : only_ctxs_changed ev ev.
Proof. exists (fn_ctxs_ ev). by destruct ev. Qed.

Lemma only_ctxs_changed_trans ev1 ev2 ev3 :
  only_ctxs_changed ev1 ev2 → only_ctxs_changed ev2 ev3 → only_ctxs_changed ev1 ev3.
Proof.
  intros (c1 & -> & L1) (c2 & -> & L2). exists c2. simpl in *.
  split; [reflexivity | congruence].
Qed.

Lemma eval_only_ctxs_changed e : ∀ t row ev v ev' log,
  Evaluator.eval e t row ev = Some (v, ev', log) → only_ctxs_changed ev ev'.
Proof.
  induction e as [t0 idx s en c f pr cs IH] using ScalarExpr_tree_ind.
  intros t row ev v ev' log. rewrite eval_unfold. simpl.
  assert (∀ ev args ev1 l,
            Evaluator.eval_children cs row ev = Some (args, ev1, l) →
            only_ctxs_changed ev ev1) as Hcs.
  { clear -IH. induction IH as [| x cs Hx _ IHcs]; intros ev args ev1 l; simpl.
    - intros [= <- <- <-]. apply only_ctxs_changed_refl.
    - destruct (Evaluator.eval x (type_ x) row ev) as [[[v1 e1] l1] |] eqn:E1; [| done].
      destruct (Evaluator.eval_children cs row e1) as [[[vs e2] l2] |] eqn:E2; [| done].
      intros [= <- <- <-].
      eapply only_ctxs_changed_trans; eauto. }
  destruct (Evaluator.eval_children cs row ev) as [[[args ev1] l] |] eqn:E; [| done].
  specialize (Hcs _ _ _ _ E).
  destruct (f t row args) as [v0 | msg].
  - intros [= <- <- <-]. exact Hcs.
  - destruct (fn_context ev1 idx) as [c0 | |]; try done.
    intros [= <- <- <-].
    eapply only_ctxs_changed_trans; [exact Hcs |].
    eexists. split; [reflexivity |]. by rewrite length_insert.
Qed.

Lemma wf_tree_inv n t idx s en c f pr cs :
  wf_tree n (mkScalarExpr t idx s en c f pr cs) →
  owns_context_or_total n (mkScalarExpr t idx s en c f pr cs)
  ∧ Forall (wf_tree n) cs.
Proof.
  unfold wf_tree. simpl. intros H. inversion H as [| ? ? Hroot Hrest]; subst.
  split; [exact Hroot |]. by apply List.Forall_flat_map in Hrest.
Qed.

(** On a sound tree evaluation completes, whatever the row. *)
Lemma eval_children_total n cs row :
  Forall (λ c, ∀ t row ev,
            wf_tree (length (fn_ctxs_ ev)) c →
            ∃ v ev' log, Evaluator.eval c t row ev = Some (v, ev', log)) cs →
  Forall (wf_tree n) cs →
  ∀ ev, length (fn_ctxs_ ev) = n →
        ∃ args ev' log, Evaluator.eval_children cs row ev = Some (args, ev', log)
                        ∧ length (fn_ctxs_ ev') = n.
Proof.
  induction 1 as [| x cs Hx _ IH]; intros Hwf ev Hlen; simpl.
  - eauto.
  - inversion Hwf as [| ? ? Hwx Hwcs]; subst.
    destruct (Hx (type_ x) row ev) as (v1 & e1 & l1 & E1); [exact Hwx |].
    rewrite E1.
    destruct (eval_only_ctxs_changed _ _ _ _ _ _ _ E1) as (ctxs & -> & Hl).
    destruct (IH Hwcs (Evaluator.set_fn_ctxs ev ctxs)) as (vs & e2 & l2 & E2 & Hl2);
      [exact Hl |].
    rewrite E2. eauto 10.
Qed.

Lemma eval_total e : ∀ t row ev,
  wf_tree (length (fn_ctxs_ ev)) e →
  ∃ v ev' log, Evaluator.eval e t row ev = Some (v, ev', log).
Proof.
  induction e as [t0 idx s en c f pr cs IH] using ScalarExpr_tree_ind.
  intros t row ev Hwf. apply wf_tree_inv in Hwf as [Hroot Hcs].
  rewrite eval_unfold. simpl.
  destruct (eval_children_total _ cs row IH Hcs ev eq_refl)
    as (args & ev1 & l & E & Hlen).
  rewrite E. destruct (f t row args) as [v0 | msg] eqn:Hf; [eauto |].
  destruct Hroot as [[Hr Hint] | [_ Htotal]]; simpl in *.
  - destruct (fn_context_Returned ev1 idx Hint) as (c0 & _ & Hc); [by rewrite Hlen |].
    rewrite Hc. eauto.
  - destruct (Htotal t row args) as [v0 Hv]. congruence.
Qed.

(* ===================================================================== *)
(** ** Close                                                              *)
(* ===================================================================== *)

Section CloseFacts.

Variable state : RuntimeState.

(** Closing a live evaluator completes, records one call and neither
    adds nor removes an object. *)
Lemma Evaluator_Close_done p w :
  valid w p →
  ∃ w', Evaluator.Close p state w = Done tt w'
        ∧ calls w' = calls w ++ [CallClose p]
        ∧ dom (objects w') = dom (objects w).
Proof.
  intros Hp. pose proof Hp as Hdom.
  apply valid_lookup in Hp as [ev Hev].
  unfold Evaluator.Close. run_step. rewrite Hev. simpl.
  destruct (closed_ ev); [eauto |].
  destruct (is_clone_ ev); simpl; eexists; (split; [reflexivity |]);
    simpl; split; auto using dom_insert_valid.
Qed.

Lemma ExprContext_Close_done ctxs : ∀ w,
  Forall (valid w) ctxs →
  ∃ w', ExprContext.Close ctxs state w = Done tt w'
        ∧ calls w' = calls w ++ map CallClose ctxs
        ∧ dom (objects w') = dom (objects w).
Proof.
  induction ctxs as [| p ctxs IH]; intros w Hv; simpl.
  - exists w. rewrite app_nil_r. auto.
  - inversion Hv as [| ? ? Hp Hrest]; subst.
    destruct (Evaluator_Close_done p w Hp) as (w1 & E1 & C1 & D1).
    unfold bind. rewrite E1.
    destruct (IH w1) as (w2 & E2 & C2 & D2).
    { eapply Forall_impl; [exact Hrest |]. intros q Hq. unfold valid in *. by rewrite D1. }
    exists w2. split; [exact E2 |]. split.
    + rewrite C2, C1, <- app_assoc. reflexivity.
    + by rewrite D2.
Qed.

End CloseFacts.

(** C1, as stated, fails: with materialization the code closes the
    materialization evaluators first, not last. At lhs = [0], rhs = [1],
    materialization = [2] the calls are Close 2, Close 1, Close 0. *)
Lemma Close_order_claimed_fails :
  ¬ Close_order_claimed Examples.materializing_set Examples.state0
      Examples.three_evaluators.
Proof.
  intros H.
  destruct (SortExec.Close Examples.materializing_set Examples.state0
              Examples.three_evaluators) as [[] w' |] eqn:E;
    [| vm_compute in E; discriminate].
  specialize (H w' E).
  assert (calls w' = [CallClose 2; CallClose 1; CallClose 0]) as Hc.
  { apply (f_equal (λ r, match r with Done _ w => calls w | Fault => [] end)) in E.
    vm_compute in E. symmetry. exact E. }
  rewrite Hc in H. vm_compute in H. discriminate.
Qed.

(** C1 (amended): Close releases, in this order, the materialization
    evaluators (when materialize_tuple is set), then the rhs ordering
    evaluators, then the lhs ordering evaluators; with live evaluators it
    completes. *)
Theorem Close_order this state w :
  Forall (valid w) (close_sequence this) →
  ∃ w', SortExec.Close this state w = Done tt w'
        ∧ calls w' = calls w ++ map CallClose (close_sequence this).
Proof.
  unfold close_sequence, SortExec.Close. intros Hv.
  apply Forall_app in Hv as [Hm Hv]. apply Forall_app in Hv as [Hr Hl].
  assert (∃ w1, (if materialize_tuple_ this
                 then ExprContext.Close (sort_tuple_slot_expr_ctxs_ this) state
                 else ret tt) w = Done tt w1
                ∧ calls w1 = calls w ++ map CallClose
                    (if materialize_tuple_ this then sort_tuple_slot_expr_ctxs_ this else [])
                ∧ dom (objects w1) = dom (objects w)) as (w1 & E1 & C1 & D1).
  { destruct (materialize_tuple_ this).
    - by apply ExprContext_Close_done.
    - exists w. rewrite app_nil_r. auto. }
  destruct (ExprContext_Close_done state (rhs_ordering_expr_ctxs_ this) w1)
    as (w2 & E2 & C2 & D2).
  { eapply Forall_impl; [exact Hr |]. intros q Hq. unfold valid in *. by rewrite D1. }
  destruct (ExprContext_Close_done state (lhs_ordering_expr_ctxs_ this) w2)
    as (w3 & E3 & C3 & D3).
  { eapply Forall_impl; [exact Hl |]. intros q Hq. unfold valid in *. by rewrite D2, D1. }
  exists w3. unfold bind. rewrite E1, E2. split; [exact E3 |].
  rewrite C3, C2, C1, !map_app, <- !app_assoc. reflexivity.
Qed.

Lemma Close_order_witness :
  ∃ w', SortExec.Close Examples.materializing_set Examples.state0
          Examples.three_evaluators = Done tt w'
        ∧ calls w' = [CallClose 2; CallClose 1; CallClose 0].
Proof.
  apply (Close_order Examples.materializing_set Examples.state0
           Examples.three_evaluators).
  unfold valid. repeat constructor; vm_compute; reflexivity.
Defined.

(* ===================================================================== *)
(** ** Init from two evaluator lists                                      *)
(* ===================================================================== *)

(** C10: Init from two already-built lists always succeeds, stores exactly
    those lists as lhs and rhs, and leaves the flag, the materialization
    list and everything outside the expression set as they were. *)
Theorem Init_ctxs_frame lhs rhs this w :
  ∃ this', SortExec.Init_ctxs lhs rhs this w = Done (OK, this') w
           ∧ lhs_ordering_expr_ctxs_ this' = lhs
           ∧ rhs_ordering_expr_ctxs_ this' = rhs
           ∧ materialize_tuple_ this' = materialize_tuple_ this
           ∧ sort_tuple_slot_expr_ctxs_ this' = sort_tuple_slot_expr_ctxs_ this.
Proof.
  eexists. split; [reflexivity |]. simpl. auto.
Qed.

(* ===================================================================== *)
(** ** Prepare                                                            *)
(* ===================================================================== *)

Lemma same_roots_refl w : same_roots w w.
Proof. intros q. reflexivity. Qed.

Lemma same_roots_trans w1 w2 w3 :
  same_roots w1 w2 → same_roots w2 w3 → same_roots w1 w3.
Proof. intros H12 H23 q. by rewrite H23, H12. Qed.

Lemma same_roots_valid w w' p : same_roots w w' → valid w p → valid w' p.
Proof.
  intros Hr Hp. apply valid_lookup in Hp as [ev Hev]. apply valid_lookup.
  specialize (Hr p). rewrite Hev in Hr. simpl in Hr.
  destruct (objects w' !! p); [eauto | discriminate].
Qed.

Lemma binding_status_same_roots w w' p rd :
  same_roots w w' → binding_status w' p rd = binding_status w p rd.
Proof.
  intros Hr. unfold binding_status. specialize (Hr p).
  destruct (objects w' !! p), (objects w !! p); simpl in Hr; congruence.
Qed.

(** Allocating the contexts never faults and touches only the
    fragment-scope store. *)
Lemma CreateFnCtxs_loop_done ns pool : ∀ w,
  ∃ ctxs w', Evaluator.CreateFnCtxs_loop ns pool w = Done ctxs w'
             ∧ objects w' = objects w ∧ calls w' = calls w
             ∧ const_evals w' = const_evals w.
Proof.
  induction ns as [| n ns IH]; intros w; simpl.
  - exists [], w. auto.
  - destruct (Evaluator.needs_context n); [| apply IH].
    run_step.
    destruct (IH (mkWorld (objects w)
                    (<[fresh (dom (fragments w)) := mkFragmentState false None]> (fragments w))
                    (calls w) (const_evals w)))
      as (ctxs & w' & E & Ho & Hc & Hn).
    rewrite E. eexists _, w'. split; [reflexivity |]. auto.
Qed.

Lemma Evaluator_Prepare_done p state rd tracker w :
  valid w p →
  ∃ w', Evaluator.Prepare p state rd tracker w = Done (binding_status w p rd) w'
        ∧ calls w' = calls w ++ [CallPrepare p rd tracker]
        ∧ same_roots w w'.
Proof.
  intros Hp. apply valid_lookup in Hp as [ev Hev].
  unfold Evaluator.Prepare, Evaluator.CreateFnCtxs, binding_status.
  run_step. rewrite Hev. simpl.
  destruct (CreateFnCtxs_loop_done (nodes (root_ ev)) tracker
              (mkWorld (objects w) (fragments w)
                 (calls w ++ [CallPrepare p rd tracker]) (const_evals w)))
    as (ctxs & w1 & E & Ho & Hc & Hn).
  rewrite E. eexists. split; [reflexivity |]. simpl. split; [exact Hc |].
  intros q. simpl. rewrite Ho. simpl.
  destruct (decide (p = q)) as [-> | Hne].
  - rewrite lookup_insert_eq, Hev. reflexivity.
  - by rewrite lookup_insert_ne.
Qed.

Lemma ExprContext_Prepare_plan ctxs state rd tracker w :
  ExprContext.Prepare ctxs state rd tracker w
  = prepare_all (map (λ p, (p, rd)) ctxs) state tracker w.
Proof.
  revert w. induction ctxs as [| p ctxs IH]; intros w; simpl; [reflexivity |].
  unfold RETURN_IF_ERROR, bind.
  destruct (Evaluator.Prepare p state rd tracker w) as [[| msg] w1 |]; auto.
Qed.

Lemma prepare_all_app l1 l2 state tracker w :
  prepare_all (l1 ++ l2) state tracker w
  = (RETURN_IF_ERROR! prepare_all l1 state tracker; prepare_all l2 state tracker) w.
Proof.
  revert w. induction l1 as [| b l1 IH]; intros w; simpl; [reflexivity |].
  unfold RETURN_IF_ERROR, bind in *.
  destruct (Evaluator.Prepare (fst b) state (snd b) tracker w) as [[| msg] w1 |]; auto.
Qed.

Lemma SortExec_Prepare_plan this state child out tracker w :
  SortExec.Prepare this state child out tracker w
  = prepare_all (prepare_plan this child out) state tracker w.
Proof.
  unfold SortExec.Prepare, prepare_plan. rewrite prepare_all_app.
  unfold RETURN_IF_ERROR, bind.
  destruct (materialize_tuple_ this).
  - rewrite ExprContext_Prepare_plan.
    destruct (prepare_all _ state tracker w) as [[| msg] w1 |]; auto.
    rewrite ExprContext_Prepare_plan.
    destruct (prepare_all _ state tracker w1) as [[| msg] w2 |]; auto.
  - simpl. unfold ret. rewrite ExprContext_Prepare_plan.
    destruct (prepare_all _ state tracker w) as [[| msg] w2 |]; auto.
Qed.

Lemma all_bind_same_roots w w' plan :
  same_roots w w' → all_bind w plan → all_bind w' plan.
Proof.
  intros Hr Hall. unfold all_bind in *.
  eapply Forall_impl; [exact Hall |]. intros b Hb. simpl in *.
  by rewrite (binding_status_same_roots w w').
Qed.

Lemma prepare_all_spec plan state tracker : ∀ w,
  Forall (λ b, valid w (fst b)) plan →
  ∃ st w', prepare_all plan state tracker w = Done st w'
    ∧ same_roots w w'
    ∧ (all_bind w plan →
       st = OK ∧ calls w' = calls w ++ map (prepare_call tracker) plan)
    ∧ (∀ pre b post msg,
         plan = pre ++ b :: post → all_bind w pre →
         binding_status w (fst b) (snd b) = Error msg →
         st = Error msg
         ∧ calls w' = calls w ++ map (prepare_call tracker) (pre ++ [b])).
Proof.
  induction plan as [| b plan IH]; intros w Hv.
  - exists OK, w. simpl. split; [reflexivity |]. split; [apply same_roots_refl |].
    split.
    + intros _. by rewrite app_nil_r.
    + intros [| ? ?] ? ? ? Heq; discriminate.
  - inversion Hv as [| ? ? Hb Hrest]; subst.
    destruct (Evaluator_Prepare_done (fst b) state (snd b) tracker w Hb)
      as (w1 & E1 & C1 & R1).
    simpl. unfold RETURN_IF_ERROR, bind. rewrite E1.
    destruct (binding_status w (fst b) (snd b)) as [| msg0] eqn:Hst.
    + destruct (IH w1) as (st & w2 & E2 & R2 & HA & HB).
      { eapply Forall_impl; [exact Hrest |]. intros c. apply same_roots_valid, R1. }
      exists st, w2. split; [exact E2 |].
      split; [eapply same_roots_trans; eauto |]. split.
      * intros Hall. inversion Hall as [| ? ? _ Hall']; subst.
        destruct (HA (all_bind_same_roots _ _ _ R1 Hall')) as [-> Hc].
        split; [reflexivity |]. rewrite Hc, C1, <- app_assoc. reflexivity.
      * intros [| b' pre] b0 post msg Heq Hall Hfail; simpl in Heq.
        -- injection Heq as -> ->. congruence.
        -- injection Heq as -> ->.
           inversion Hall as [| ? ? _ Hall']; subst.
           destruct (HB pre b0 post msg eq_refl
                       (all_bind_same_roots _ _ _ R1 Hall')) as [-> Hc].
           { by rewrite (binding_status_same_roots w w1). }
           split; [reflexivity |]. rewrite Hc, C1, <- app_assoc. reflexivity.
    + exists (Error msg0), w1. unfold ret. split; [reflexivity |].
      split; [exact R1 |]. split.
      * intros Hall. inversion Hall; subst. congruence.
      * intros [| b' pre] b0 post msg Heq Hall Hfail; simpl in Heq.
        -- injection Heq as -> ->. split; [congruence |]. exact C1.
        -- injection Heq as -> ->. inversion Hall; subst. congruence.
Qed.

(** C4: Prepare binds the materialization evaluators (when
    materialize_tuple is set) against the child row layout, then the lhs
    ordering evaluators against the output row layout; when every binding
    succeeds it returns OK, and otherwise it returns the status of the
    first binding that fails, having gone no further. *)
Theorem Prepare_binds this state child_row_desc output_row_desc tracker w :
  Forall (λ b, valid w (fst b)) (prepare_plan this child_row_desc output_row_desc) →
  ∃ st w',
    SortExec.Prepare this state child_row_desc output_row_desc tracker w = Done st w'
    ∧ (all_bind w (prepare_plan this child_row_desc output_row_desc) →
       st = OK
       ∧ calls w' = calls w ++ map (prepare_call tracker)
                      (prepare_plan this child_row_desc output_row_desc))
    ∧ (∀ pre b post msg,
         prepare_plan this child_row_desc output_row_desc = pre ++ b :: post →
         all_bind w pre →
         binding_status w (fst b) (snd b) = Error msg →
         st = Error msg
         ∧ calls w' = calls w ++ map (prepare_call tracker) (pre ++ [b])).
Proof.
  intros Hv.
  destruct (prepare_all_spec _ state tracker w Hv) as (st & w' & E & _ & HA & HB).
  exists st, w'. rewrite SortExec_Prepare_plan. auto.
Qed.

Lemma Prepare_binds_witness :
  ∃ st w',
    SortExec.Prepare (mkSortExecExprs [1%nat; 0%nat] [] [2%nat] true)
      Examples.state0 4%nat 5%nat 9%nat Examples.picky_world = Done st w'
    ∧ st = Error "slot not in row"
    ∧ calls w' = [CallPrepare 2 4%nat 9%nat; CallPrepare 1 5%nat 9%nat].
Proof.
  destruct (Prepare_binds (mkSortExecExprs [1%nat; 0%nat] [] [2%nat] true)
              Examples.state0 4%nat 5%nat 9%nat Examples.picky_world)
    as (st & w' & E & _ & HB).
  { unfold valid. repeat constructor; vm_compute; reflexivity. }
  exists st, w'. split; [exact E |].
  apply (HB [(2%nat, 4%nat)] (1%nat, 5%nat) [(0%nat, 5%nat)] "slot not in row").
  - reflexivity.
  - repeat constructor.
  - reflexivity.
Defined.

(* ===================================================================== *)
(** ** Open                                                               *)
(* ===================================================================== *)

(** Computing the constants touches neither the object store nor the
    record of calls, and leaves the evaluator's flags alone. *)
Lemma open_nodes_frame ns : ∀ ev w ev' w',
  Evaluator.open_nodes ns ev w = Done ev' w' →
  objects w' = objects w ∧ calls w' = calls w ∧ only_ctxs_changed ev ev'.
Proof.
  induction ns as [| n ns IH]; intros ev w ev' w'; simpl.
  - unfold ret. intros [= <- <-]. auto using only_ctxs_changed_refl.
  - destruct (Evaluator.needs_context n); [| apply IH].
    destruct (fn_context ev (fn_ctx_idx_ n)) as [c | |]; try (unfold fault; done).
    destruct (is_constant_ n).
    + destruct (Evaluator.eval n (type_ n) None ev) as [[[v ev1] l] |] eqn:E;
        [| unfold fault; done].
      run_step. intros H. apply IH in H as (Ho & Hc & Hev). simpl in *.
      repeat split; auto.
      eapply only_ctxs_changed_trans; [| exact Hev].
      eapply eval_only_ctxs_changed; eauto.
    + run_step. intros H. apply IH in H as (Ho & Hc & Hev). simpl in *. auto.
Qed.

(** What a completed Open of one evaluator leaves behind. *)
Lemma Evaluator_Open_inv p state w st w' :
  Evaluator.Open p state w = Done st w' →
  calls w' = calls w ++ [CallOpen p]
  ∧ dom (objects w') = dom (objects w)
  ∧ (∃ ev', objects w' !! p = Some ev' ∧ opened_ ev' = true)
  ∧ (∀ q, q ≠ p → objects w' !! q = objects w !! q).
Proof.
  unfold Evaluator.Open. run_step.
  destruct (objects w !! p) as [ev |] eqn:Hev; [| done]. simpl.
  destruct (opened_ ev) eqn:Hop.
  - intros [= <- <-]. simpl. eauto 10.
  - destruct (Evaluator.open_nodes (nodes (root_ ev)) (Evaluator.set_opened ev) _)
      as [ev1 w1 |] eqn:E; [| done].
    apply open_nodes_frame in E as (Ho & Hc & (ctxs & -> & _)). simpl in *.
    intros [= <- <-]. simpl. rewrite Ho, Hc. repeat split.
    + apply dom_insert_valid, elem_of_dom. eauto.
    + rewrite lookup_insert_eq. eauto.
    + intros q Hq. by rewrite lookup_insert_ne.
Qed.

(** Opening a list records the calls in list order and stops at the first
    error. *)
Lemma ExprContext_Open_inv ctxs state : ∀ w st w',
  ExprContext.Open ctxs state w = Done st w' →
  dom (objects w') = dom (objects w)
  ∧ ∃ cs, calls w' = calls w ++ cs
          ∧ cs `prefix_of` map CallOpen ctxs
          ∧ (st = OK → cs = map CallOpen ctxs).
Proof.
  induction ctxs as [| p ctxs IH]; intros w st w'; simpl.
  - unfold ret. intros [= <- <-]. split; [reflexivity |].
    exists []. by rewrite app_nil_r.
  - unfold RETURN_IF_ERROR, bind.
    destruct (Evaluator.Open p state w) as [st1 w1 |] eqn:E1; [| done].
    apply Evaluator_Open_inv in E1 as (C1 & D1 & _ & _).
    destruct st1 as [| msg].
    + intros H. apply IH in H as (D2 & cs & C2 & Hpre & Hok).
      split; [congruence |].
      exists (CallOpen p :: cs). split; [| split].
      * rewrite C2, C1, <- app_assoc. reflexivity.
      * by apply prefix_cons.
      * intros Hst. by rewrite (Hok Hst).
    + unfold ret. intros [= <- <-]. split; [exact D1 |].
      exists [CallOpen p]. split; [exact C1 |]. split; [| done].
      apply prefix_cons, prefix_nil.
Qed.

(** *** Cloning a list *)

Lemma extends_None w w' q : extends w w' → objects w' !! q = None → objects w !! q = None.
Proof.
  intros Hx Hq. destruct (objects w !! q) as [ev |] eqn:E; [| reflexivity].
  apply Hx in E. congruence.
Qed.

Lemma Evaluator_Clone_inv p state pool w st r w' :
  Evaluator.Clone p state pool w = Done (st, r) w' →
  calls w' = calls w ++ [CallClone p]
  ∧ extends w w'
  ∧ match st with
    | OK => ∃ ev q, r = Some q ∧ objects w !! p = Some ev ∧ opened_ ev = true
                    ∧ objects w !! q = None
                    ∧ objects w' = <[q := Evaluator.make_clone ev pool]> (objects w)
    | Error _ => r = None ∧ objects w' = objects w
                 ∧ ∃ ev, objects w !! p = Some ev ∧ opened_ ev = false
    end.
Proof.
  unfold Evaluator.Clone. run_step.
  destruct (objects w !! p) as [ev |] eqn:Hev; [| done]. simpl.
  destruct (opened_ ev) eqn:Hop; simpl.
  - intros [= <- <- <-]. simpl.
    assert (objects w !! fresh (dom (objects w)) = None) as Hfresh.
    { apply not_elem_of_dom, is_fresh. }
    split; [reflexivity |]. split.
    + intros q e Hq. simpl. rewrite lookup_insert_ne; [exact Hq | congruence].
    + eauto 10.
  - intros [= <- <- <-]. simpl. split; [reflexivity |]. split; [by intros ? ? ? |].
    eauto.
Qed.

Lemma ExprContext_Clone_inv ctxs state : ∀ acc w st new w',
  ExprContext.Clone ctxs state acc w = Done (st, new) w' →
  extends w w'
  ∧ ∃ cs qs, calls w' = calls w ++ cs ∧ new = acc ++ qs
      ∧ cs `prefix_of` map CallClone ctxs
      ∧ (st = OK → cs = map CallClone ctxs
                   ∧ Forall2 (is_clone_of state w w') ctxs qs).
Proof.
  induction ctxs as [| p ctxs IH]; intros acc w st new w'; simpl.
  - unfold ret. intros [= <- <- <-]. split; [by intros ? ? ? |].
    exists [], []. rewrite !app_nil_r. repeat split; auto.
  - unfold bind.
    destruct (Evaluator.Clone p state (state_mem_pool state) w)
      as [[st1 r] w1 |] eqn:E1; [| done].
    apply Evaluator_Clone_inv in E1 as (C1 & X1 & H1).
    destruct st1 as [| msg].
    + destruct H1 as (ev & q & -> & Hev & Hop & Hq & Ho).
      intros H. apply IH in H as (X2 & cs & qs & C2 & -> & Hpre & Hok).
      split; [intros ? ? ?; auto |].
      exists (CallClone p :: cs), (q :: qs). split; [| split; [| split]].
      * rewrite C2, C1, <- app_assoc. reflexivity.
      * by rewrite <- app_assoc.
      * by apply prefix_cons.
      * intros Hst. destruct (Hok Hst) as [-> HF]. split; [reflexivity |].
        constructor.
        -- split; [exact Hq |]. exists ev. split; [auto |]. split; [exact Hop |].
           apply X2. rewrite Ho. apply lookup_insert_eq.
        -- eapply Forall2_impl; [exact HF |].
           intros p' q' (Hn & ev' & Hp' & Hop' & Hq').
           split; [eapply extends_None; eauto |]. eauto.
    + destruct H1 as (-> & Ho & _). unfold ret. intros [= <- <- <-].
      split; [exact X1 |].
      exists [CallClone p], []. rewrite app_nil_r.
      repeat split; auto; [apply prefix_cons, prefix_nil | done | done].
Qed.

Lemma CloneIfNotExists_inv ctxs state rhs w st new w' :
  ExprContext.CloneIfNotExists ctxs state rhs w = Done (st, new) w' →
  (rhs ≠ [] → new = rhs)
  ∧ extends w w'
  ∧ ∃ cs, calls w' = calls w ++ cs
      ∧ cs `prefix_of` match rhs with [] => map CallClone ctxs | _ :: _ => [] end
      ∧ (st = OK →
         cs = match rhs with [] => map CallClone ctxs | _ :: _ => [] end
         ∧ (rhs = [] → Forall2 (is_clone_of state w w') ctxs new)).
Proof.
  unfold ExprContext.CloneIfNotExists. destruct rhs as [| r0 rhs].
  - intros H. apply ExprContext_Clone_inv in H as (X & cs & qs & C & -> & Hpre & Hok).
    split; [done |]. split; [exact X |]. exists cs. simpl. repeat split; auto.
    + by apply Hok.
    + intros _. by apply Hok.
  - unfold ret. intros [= <- <- <-]. split; [done |]. split; [by intros ? ? ? |].
    exists []. rewrite app_nil_r. repeat split; auto. done.
Qed.

(** *** Completion of Open *)

Lemma wf_tree_subtrees n e : wf_tree n e → Forall (wf_tree n) (nodes e).
Proof.
  induction e as [t idx s en c f pr cs IH] using ScalarExpr_tree_ind.
  intros Hwf. simpl. constructor; [exact Hwf |].
  apply wf_tree_inv in Hwf as [_ Hcs].
  apply List.Forall_flat_map. rewrite Forall_forall in IH, Hcs.
  apply Forall_forall. intros x Hx. apply IH; auto.
Qed.

Lemma wf_tree_root n e : wf_tree n e → owns_context_or_total n e.
Proof. destruct e. intros H. by apply wf_tree_inv in H as [H _]. Qed.

Lemma open_nodes_total ns : ∀ ev w,
  Forall (wf_tree (length (fn_ctxs_ ev))) ns →
  ∃ ev' w', Evaluator.open_nodes ns ev w = Done ev' w'.
Proof.
  induction ns as [| n ns IH]; intros ev w Hwf; simpl; [unfold ret; eauto |].
  inversion Hwf as [| ? ? Hn Hns]; subst.
  destruct (Evaluator.needs_context n) eqn:Hneeds; [| by apply IH].
  destruct (wf_tree_root _ _ Hn) as [[Hr Hint] | [Hnone _]].
  2:{ unfold Evaluator.needs_context in Hneeds. rewrite Hnone in Hneeds. done. }
  destruct (fn_context_Returned ev _ Hint Hr) as (c & _ & ->).
  destruct (is_constant_ n).
  - destruct (eval_total n (type_ n) None ev Hn) as (v & ev1 & l & E). rewrite E.
    destruct (eval_only_ctxs_changed _ _ _ _ _ _ _ E) as (ctxs & -> & Hlen).
    run_step. apply IH. simpl. by rewrite Hlen.
  - run_step. by apply IH.
Qed.

Lemma Evaluator_Open_total p state w :
  sound_at w p →
  ∃ st w', Evaluator.Open p state w = Done st w'.
Proof.
  intros (ev & Hev & Hwf). unfold Evaluator.Open. run_step. rewrite Hev. simpl.
  destruct (opened_ ev); [eauto |].
  destruct (open_nodes_total (nodes (root_ ev)) (Evaluator.set_opened ev)
              (mkWorld (objects w) (fragments w) (calls w ++ [CallOpen p])
                 (const_evals w))) as (ev1 & w1 & E).
  { simpl. by apply wf_tree_subtrees. }
  rewrite E. eauto.
Qed.

Lemma Evaluator_Open_sound p state w st w' :
  Evaluator.Open p state w = Done st w' →
  ∀ q, sound_at w q → sound_at w' q.
Proof.
  unfold Evaluator.Open. run_step.
  destruct (objects w !! p) as [ev |] eqn:Hev; [| done]. simpl.
  destruct (opened_ ev) eqn:Hop.
  - intros [= <- <-]. auto.
  - destruct (Evaluator.open_nodes (nodes (root_ ev)) (Evaluator.set_opened ev) _)
      as [ev1 w1 |] eqn:E; [| done].
    apply open_nodes_frame in E as (Ho & _ & (ctxs & -> & Hlen)). simpl in *.
    intros [= <- <-] q (evq & Hq & Hwf). unfold sound_at. simpl. rewrite Ho.
    destruct (decide (p = q)) as [<- | Hne].
    + rewrite lookup_insert_eq. eexists. split; [reflexivity |]. simpl.
      rewrite Hlen. congruence.
    + rewrite lookup_insert_ne by exact Hne. eauto.
Qed.

Lemma ExprContext_Open_total ctxs state : ∀ w,
  Forall (sound_at w) ctxs →
  ∃ st w', ExprContext.Open ctxs state w = Done st w'
           ∧ ∀ q, sound_at w q → sound_at w' q.
Proof.
  induction ctxs as [| p ctxs IH]; intros w Hs; simpl; [unfold ret; eauto |].
  inversion Hs as [| ? ? Hp Hrest]; subst.
  destruct (Evaluator_Open_total p state w Hp) as (st1 & w1 & E1).
  pose proof (Evaluator_Open_sound _ _ _ _ _ E1) as S1.
  unfold RETURN_IF_ERROR, bind. rewrite E1. destruct st1 as [| msg].
  - destruct (IH w1) as (st2 & w2 & E2 & S2).
    { eapply Forall_impl; [exact Hrest |]. auto. }
    eauto 10.
  - unfold ret. eauto.
Qed.

Lemma ExprContext_Clone_total ctxs state : ∀ acc w,
  Forall (valid w) ctxs →
  ∃ r w', ExprContext.Clone ctxs state acc w = Done r w'.
Proof.
  induction ctxs as [| p ctxs IH]; intros acc w Hv; simpl; [unfold ret; eauto |].
  inversion Hv as [| ? ? Hp Hrest]; subst.
  apply valid_lookup in Hp as [ev Hev].
  unfold bind, Evaluator.Clone at 1. run_step. rewrite Hev. simpl.
  destruct (opened_ ev); simpl; [| eauto].
  apply IH. eapply Forall_impl; [exact Hrest |].
  intros q Hq. unfold valid in *. simpl. rewrite dom_insert_L. set_solver.
Qed.

Lemma sound_at_valid w p : sound_at w p → valid w p.
Proof. intros (ev & Hev & _). apply valid_lookup. eauto. Qed.

Lemma SortExec_Open_total this state w :
  Forall (sound_at w) (open_targets this) →
  ∃ r w', SortExec.Open this state w = Done r w'.
Proof.
  unfold open_targets. intros Hs. apply Forall_app in Hs as [Hm Hl].
  unfold SortExec.Open, bind.
  assert (∃ st1 w1,
            (if materialize_tuple_ this
             then ExprContext.Open (sort_tuple_slot_expr_ctxs_ this) state
             else ret OK) w = Done st1 w1
            ∧ ∀ q, sound_at w q → sound_at w1 q) as (st1 & w1 & E1 & S1).
  { destruct (materialize_tuple_ this).
    - by apply ExprContext_Open_total.
    - unfold ret. eauto. }
  rewrite E1. destruct st1 as [| msg1]; [| unfold ret; eauto].
  destruct (ExprContext_Open_total (lhs_ordering_expr_ctxs_ this) state w1)
    as (st2 & w2 & E2 & S2).
  { eapply Forall_impl; [exact Hl |]. auto. }
  rewrite E2. destruct st2 as [| msg2]; [| unfold ret; eauto].
  assert (∃ r w3, ExprContext.CloneIfNotExists (lhs_ordering_expr_ctxs_ this) state
                    (rhs_ordering_expr_ctxs_ this) w2 = Done r w3)
    as ([st3 rhs] & w3 & E3).
  { unfold ExprContext.CloneIfNotExists.
    destruct (rhs_ordering_expr_ctxs_ this); [| unfold ret; eauto].
    apply ExprContext_Clone_total.
    eapply Forall_impl; [exact Hl |]. intros q Hq. apply sound_at_valid. auto. }
  rewrite E3. destruct st3; unfold ret; eauto.
Qed.

Lemma record_all_record_all cs1 cs2 w :
  record_all cs2 (record_all cs1 w) = record_all (cs1 ++ cs2) w.
Proof. unfold record_all. simpl. by rewrite app_assoc. Qed.

Lemma record_all_nil w : record_all [] w = w.
Proof. unfold record_all. rewrite app_nil_r. by destruct w. Qed.

Lemma Evaluator_Open_opened p state w st w' :
  Evaluator.Open p state w = Done st w' →
  opened_at w' p ∧ ∀ q, opened_at w q → opened_at w' q.
Proof.
  intros H. apply Evaluator_Open_inv in H as (_ & _ & Hp & F).
  split; [exact Hp |]. intros q Hq.
  destruct (decide (q = p)) as [-> | Hne]; [exact Hp |].
  unfold opened_at. by rewrite F.
Qed.

Lemma ExprContext_Open_opened ctxs state : ∀ w st w',
  ExprContext.Open ctxs state w = Done st w' →
  (∀ q, opened_at w q → opened_at w' q)
  ∧ (st = OK → Forall (opened_at w') ctxs).
Proof.
  induction ctxs as [| p ctxs IH]; intros w st w'; simpl.
  - unfold ret. intros [= <- <-]. auto.
  - unfold RETURN_IF_ERROR, bind.
    destruct (Evaluator.Open p state w) as [st1 w1 |] eqn:E1; [| done].
    apply Evaluator_Open_opened in E1 as [Hp P1].
    destruct st1 as [| msg].
    + intros H. apply IH in H as [P2 Hall]. split; [auto |].
      intros Hst. constructor; auto.
    + unfold ret. intros [= <- <-]. split; [auto | done].
Qed.

Lemma ExprContext_Open_noop ctxs state : ∀ w,
  Forall (opened_at w) ctxs →
  ExprContext.Open ctxs state w = Done OK (record_all (map CallOpen ctxs) w).
Proof.
  induction ctxs as [| p ctxs IH]; intros w Hall; simpl.
  - unfold ret. by rewrite record_all_nil.
  - inversion Hall as [| ? ? (ev & Hev & Hop) Hrest]; subst.
    unfold RETURN_IF_ERROR, bind, Evaluator.Open. run_step.
    rewrite Hev. simpl. rewrite Hop.
    change (mkWorld (objects w) (fragments w) (calls w ++ [CallOpen p]) (const_evals w))
      with (record_all [CallOpen p] w).
    rewrite IH by exact Hrest. by rewrite record_all_record_all.
Qed.

Lemma opened_at_extends w w' q : extends w w' → opened_at w q → opened_at w' q.
Proof. intros X (ev & Hev & Hop). exists ev. auto. Qed.

Lemma opened_at_valid w p : opened_at w p → valid w p.
Proof. intros (ev & Hev & _). apply valid_lookup. eauto. Qed.

Lemma run_open_plan_opens ps rest state this : ∀ w,
  run_open_plan (map StepOpen ps ++ rest) state this w
  = match ExprContext.Open ps state w with
    | Done OK w1 => run_open_plan rest state this w1
    | Done (Error msg) w1 => Done (Error msg, this) w1
    | Fault => Fault
    end.
Proof.
  induction ps as [| p ps IH]; intros w; simpl; [reflexivity |].
  unfold RETURN_IF_ERROR, bind.
  destruct (Evaluator.Open p state w) as [[| msg] w1 |]; auto.
Qed.

Lemma set_rhs_same this : SortExec.set_rhs this (rhs_ordering_expr_ctxs_ this) = this.
Proof. by destruct this. Qed.

Lemma run_open_plan_clones ps state : ∀ this w,
  run_open_plan (map StepClone ps) state this w
  = match ExprContext.Clone ps state (rhs_ordering_expr_ctxs_ this) w with
    | Done (st, new) w1 => Done (st, SortExec.set_rhs this new) w1
    | Fault => Fault
    end.
Proof.
  induction ps as [| p ps IH]; intros this w; simpl.
  - unfold ret. by rewrite set_rhs_same.
  - unfold bind.
    destruct (Evaluator.Clone p state (state_mem_pool state) w)
      as [[[| msg] [q |]] w1 |]; try reflexivity.
    + rewrite IH. simpl.
      destruct (ExprContext.Clone ps state _ w1) as [[st new] w2 |]; reflexivity.
    + unfold ret. by rewrite set_rhs_same.
    + unfold ret. by rewrite set_rhs_same.
Qed.

Lemma Open_if_flag (b : bool) l state w :
  (if b then ExprContext.Open l state else ret OK) w
  = ExprContext.Open (if b then l else []) state w.
Proof. by destruct b. Qed.

Lemma ExprContext_Open_app l1 l2 state w :
  ExprContext.Open (l1 ++ l2) state w
  = match ExprContext.Open l1 state w with
    | Done OK w1 => ExprContext.Open l2 state w1
    | r => r
    end.
Proof.
  revert w. induction l1 as [| p l1 IH]; intros w; simpl; [reflexivity |].
  unfold RETURN_IF_ERROR, bind.
  destruct (Evaluator.Open p state w) as [[| msg] w1 |]; auto.
Qed.

(** Open is the plan of C2 carried out step by step. *)
Lemma SortExec_Open_plan this state w :
  SortExec.Open this state w = run_open_plan (open_plan this) state this w.
Proof.
  unfold SortExec.Open, open_plan, open_targets, bind.
  rewrite run_open_plan_opens, Open_if_flag, ExprContext_Open_app.
  destruct (ExprContext.Open (if materialize_tuple_ this then _ else []) state w)
    as [[| msg1] w1 |]; try reflexivity.
  destruct (ExprContext.Open (lhs_ordering_expr_ctxs_ this) state w1)
    as [[| msg2] w2 |]; try reflexivity.
  unfold ExprContext.CloneIfNotExists.
  destruct (rhs_ordering_expr_ctxs_ this) as [| r0 rhs] eqn:Er.
  - rewrite run_open_plan_clones, Er.
    destruct (ExprContext.Clone _ state [] w2) as [[[| msg3] new] w3 |]; reflexivity.
  - simpl. unfold ret. rewrite <- Er, set_rhs_same. reflexivity.
Qed.

(** An error of a list Open is the error of the evaluator it stopped at. *)
Lemma ExprContext_Open_error ctxs state : ∀ w msg w',
  ExprContext.Open ctxs state w = Done (Error msg) w' →
  ∃ pre p post w0,
    ctxs = pre ++ p :: post
    ∧ ExprContext.Open pre state w = Done OK w0
    ∧ Evaluator.Open p state w0 = Done (Error msg) w'
    ∧ calls w' = calls w ++ map CallOpen (pre ++ [p]).
Proof.
  induction ctxs as [| p ctxs IH]; intros w msg w'; simpl; [unfold ret; done |].
  unfold RETURN_IF_ERROR, bind.
  destruct (Evaluator.Open p state w) as [[| msg1] w1 |] eqn:E1; [| | done].
  - intros H. apply IH in H as (pre & q & post & w0 & -> & Hpre & Hq & Hc).
    exists (p :: pre), q, post, w0. split; [reflexivity |]. split.
    + simpl. unfold RETURN_IF_ERROR, bind. by rewrite E1.
    + split; [exact Hq |].
      apply Evaluator_Open_inv in E1 as (C1 & _). rewrite Hc, C1, <- app_assoc.
      reflexivity.
  - unfold ret. intros [= <- <-]. exists [], p, ctxs, w.
    split; [reflexivity |]. split; [reflexivity |]. split; [exact E1 |].
    by apply Evaluator_Open_inv in E1 as (C1 & _).
Qed.

(** Cloning opened evaluators does not fail. *)
Lemma ExprContext_Clone_opened ctxs state : ∀ acc w st new w',
  Forall (opened_at w) ctxs →
  ExprContext.Clone ctxs state acc w = Done (st, new) w' → st = OK.
Proof.
  induction ctxs as [| p ctxs IH]; intros acc w st new w' Hop; simpl.
  - unfold ret. by intros [= <- <- <-].
  - inversion Hop as [| ? ? (ev & Hev & Ho) Hrest]; subst.
    unfold bind.
    destruct (Evaluator.Clone p state (state_mem_pool state) w)
      as [[st1 r] w1 |] eqn:E1; [| done].
    apply Evaluator_Clone_inv in E1 as (_ & X1 & H1).
    destruct st1 as [| msg].
    + destruct H1 as (ev1 & q & -> & _). apply IH.
      eapply Forall_impl; [exact Hrest |]. intros x. by apply opened_at_extends.
    + destruct H1 as (_ & _ & ev1 & Hev1 & Ho1). congruence.
Qed.

(** Open returns OK on evaluators that are already open. *)
Lemma SortExec_Open_opened this state w :
  Forall (opened_at w) (open_targets this) →
  ∃ this' w', SortExec.Open this state w = Done (OK, this') w'.
Proof.
  intros Hall. apply Forall_app in Hall as [Hm Hl].
  unfold SortExec.Open, bind. rewrite Open_if_flag.
  rewrite (ExprContext_Open_noop _ state w Hm).
  set (w1 := record_all _ w).
  assert (Forall (opened_at w1) (lhs_ordering_expr_ctxs_ this)) as Hl1.
  { eapply Forall_impl; [exact Hl |]. intros q Hq. exact Hq. }
  rewrite (ExprContext_Open_noop _ state w1 Hl1).
  set (w2 := record_all _ w1).
  assert (Forall (opened_at w2) (lhs_ordering_expr_ctxs_ this)) as Hl2.
  { eapply Forall_impl; [exact Hl1 |]. intros q Hq. exact Hq. }
  unfold ExprContext.CloneIfNotExists.
  destruct (rhs_ordering_expr_ctxs_ this) as [| r0 rhs].
  - destruct (ExprContext_Clone_total (lhs_ordering_expr_ctxs_ this) state [] w2)
      as ([st new] & w3 & E3).
    { eapply Forall_impl; [exact Hl2 |]. intros q. apply opened_at_valid. }
    rewrite E3. rewrite (ExprContext_Clone_opened _ _ _ _ _ _ _ Hl2 E3).
    unfold ret. eauto.
  - simpl. unfold ret. eauto.
Qed.

(** An error of Open is the error of the evaluator whose Open it stopped
    at; the expression set is then as it was. *)
Lemma SortExec_Open_error this state w msg this' w' :
  SortExec.Open this state w = Done (Error msg, this') w' →
  this' = this
  ∧ ∃ pre p post w0,
      open_targets this = pre ++ p :: post
      ∧ run_open_plan (map StepOpen pre) state this w = Done (OK, this) w0
      ∧ Evaluator.Open p state w0 = Done (Error msg) w'
      ∧ calls w' = calls w ++ map CallOpen (pre ++ [p]).
Proof.
  unfold SortExec.Open, open_targets, bind. rewrite Open_if_flag.
  set (mat := if materialize_tuple_ this then sort_tuple_slot_expr_ctxs_ this else []).
  assert (∀ pre w0, ExprContext.Open pre state w = Done OK w0 →
            run_open_plan (map StepOpen pre) state this w = Done (OK, this) w0) as Hrun.
  { intros pre w0 H. rewrite <- (app_nil_r (map StepOpen pre)).
    rewrite run_open_plan_opens, H. reflexivity. }
  destruct (ExprContext.Open mat state w) as [[| msg1] w1 |] eqn:E1; [| | done].
  - destruct (ExprContext.Open (lhs_ordering_expr_ctxs_ this) state w1)
      as [[| msg2] w2 |] eqn:E2; [| | done].
    + destruct (ExprContext.CloneIfNotExists (lhs_ordering_expr_ctxs_ this) state
                  (rhs_ordering_expr_ctxs_ this) w2) as [[st3 rhs'] w3 |] eqn:E3; [| done].
      assert (st3 = OK) as ->.
      { unfold ExprContext.CloneIfNotExists in E3.
        destruct (rhs_ordering_expr_ctxs_ this).
        - eapply ExprContext_Clone_opened; [| exact E3].
          by apply (ExprContext_Open_opened _ _ _ _ _ E2).
        - simpl in E3. unfold ret in E3. congruence. }
      unfold ret. done.
    + unfold ret. intros [= <- <- <-]. split; [reflexivity |].
      pose proof (ExprContext_Open_inv _ _ _ _ _ E1) as (_ & cs1 & C1 & _ & K1).
      rewrite (K1 eq_refl) in C1.
      apply ExprContext_Open_error in E2 as (pre & p & post & w0 & -> & Hpre & Hp & Hc).
      exists (mat ++ pre), p, post, w0. split; [by rewrite <- app_assoc |].
      split; [| split; [exact Hp |]].
      * apply Hrun. rewrite ExprContext_Open_app, E1. exact Hpre.
      * rewrite Hc, C1, !map_app, <- !app_assoc. reflexivity.
  - unfold ret. intros [= <- <- <-]. split; [reflexivity |].
    apply ExprContext_Open_error in E1 as (pre & p & post & w0 & Hm & Hpre & Hp & Hc).
    exists pre, p, (post ++ lhs_ordering_expr_ctxs_ this), w0.
    split; [by rewrite Hm, <- app_assoc |]. auto.
Qed.

(** C2: Open opens the materialization evaluators when materialize_tuple
    is set, then the lhs ordering evaluators, then makes the rhs ordering
    evaluators clones of the lhs ones, but only when the rhs list is
    empty: a non-empty rhs list is left as it is.  Open is that plan
    carried out call by call: its status is OK when every call returns
    OK, and otherwise the error of the evaluator whose Open it stopped
    at, the expression set being then as it was; on evaluators that are
    already open it returns OK.  The calls made are always an initial
    part of the sequence, and all of it when Open returns OK.  Open
    completes when the evaluators it opens are live and have sound
    trees. *)
Theorem Open_order this state w :
  SortExec.Open this state w = run_open_plan (open_plan this) state this w
  ∧ (Forall (sound_at w) (open_targets this) →
     ∃ r w', SortExec.Open this state w = Done r w')
  ∧ (Forall (opened_at w) (open_targets this) →
     ∃ this' w', SortExec.Open this state w = Done (OK, this') w')
  ∧ (∀ msg this' w',
       SortExec.Open this state w = Done (Error msg, this') w' →
       this' = this
       ∧ ∃ pre p post w0,
           open_targets this = pre ++ p :: post
           ∧ run_open_plan (map StepOpen pre) state this w = Done (OK, this) w0
           ∧ Evaluator.Open p state w0 = Done (Error msg) w'
           ∧ calls w' = calls w ++ map CallOpen (pre ++ [p]))
  ∧ ∀ st this' w',
      SortExec.Open this state w = Done (st, this') w' →
      lhs_ordering_expr_ctxs_ this' = lhs_ordering_expr_ctxs_ this
      ∧ sort_tuple_slot_expr_ctxs_ this' = sort_tuple_slot_expr_ctxs_ this
      ∧ materialize_tuple_ this' = materialize_tuple_ this
      ∧ (rhs_ordering_expr_ctxs_ this ≠ [] →
         rhs_ordering_expr_ctxs_ this' = rhs_ordering_expr_ctxs_ this)
      ∧ ∃ cs, calls w' = calls w ++ cs
          ∧ cs `prefix_of` open_sequence this
          ∧ (st = OK →
             cs = open_sequence this
             ∧ (rhs_ordering_expr_ctxs_ this = [] →
                Forall2 (is_clone_of state w w')
                  (lhs_ordering_expr_ctxs_ this) (rhs_ordering_expr_ctxs_ this'))).
Proof.
  split; [apply SortExec_Open_plan |].
  split; [apply SortExec_Open_total |].
  split; [apply SortExec_Open_opened |].
  split; [apply SortExec_Open_error |].
  intros st this' w'.
  unfold SortExec.Open, open_sequence, bind.
  set (mat := if materialize_tuple_ this then sort_tuple_slot_expr_ctxs_ this else []).
  assert (∀ st1 w1,
            (if materialize_tuple_ this
             then ExprContext.Open (sort_tuple_slot_expr_ctxs_ this) state
             else ret OK) w = Done st1 w1 →
            dom (objects w1) = dom (objects w)
            ∧ ∃ cs, calls w1 = calls w ++ cs ∧ cs `prefix_of` map CallOpen mat
                    ∧ (st1 = OK → cs = map CallOpen mat)) as Hmat.
  { intros st1 w1. subst mat. destruct (materialize_tuple_ this).
    - apply ExprContext_Open_inv.
    - unfold ret. intros [= <- <-]. split; [reflexivity |].
      exists []. by rewrite app_nil_r. }
  destruct ((if materialize_tuple_ this
             then ExprContext.Open (sort_tuple_slot_expr_ctxs_ this) state
             else ret OK) w) as [st1 w1 |] eqn:E1; [| done].
  destruct (Hmat _ _ eq_refl) as (D1 & cs1 & C1 & P1 & K1). clear Hmat.
  destruct st1 as [| msg1].
  2:{ unfold ret. intros [= <- <- <-]. repeat split; auto.
      exists cs1. split; [exact C1 |]. split; [by apply prefix_app_r | done]. }
  rewrite (K1 eq_refl) in C1. clear K1 P1 cs1.
  destruct (ExprContext.Open (lhs_ordering_expr_ctxs_ this) state w1)
    as [st2 w2 |] eqn:E2; [| done].
  apply ExprContext_Open_inv in E2 as (D2 & cs2 & C2 & P2 & K2).
  destruct st2 as [| msg2].
  2:{ unfold ret. intros [= <- <- <-]. repeat split; auto.
      exists (map CallOpen mat ++ cs2). split; [| split; [| done]].
      - rewrite C2, C1, <- app_assoc. reflexivity.
      - apply prefix_app, prefix_app_r, P2. }
  rewrite (K2 eq_refl) in C2. clear K2 P2 cs2.
  destruct (ExprContext.CloneIfNotExists (lhs_ordering_expr_ctxs_ this) state
              (rhs_ordering_expr_ctxs_ this) w2) as [[st3 rhs'] w3 |] eqn:E3; [| done].
  apply CloneIfNotExists_inv in E3 as (Hkeep & X3 & cs3 & C3 & P3 & K3).
  assert (st = st3 ∧ this' = SortExec.set_rhs this rhs' ∧ w' = w3 →
          lhs_ordering_expr_ctxs_ this' = lhs_ordering_expr_ctxs_ this
          ∧ sort_tuple_slot_expr_ctxs_ this' = sort_tuple_slot_expr_ctxs_ this
          ∧ materialize_tuple_ this' = materialize_tuple_ this
          ∧ (rhs_ordering_expr_ctxs_ this ≠ [] →
             rhs_ordering_expr_ctxs_ this' = rhs_ordering_expr_ctxs_ this)
          ∧ ∃ cs, calls w' = calls w ++ cs
              ∧ cs `prefix_of`
                  map CallOpen mat ++ map CallOpen (lhs_ordering_expr_ctxs_ this) ++
                  match rhs_ordering_expr_ctxs_ this with
                  | [] => map CallClone (lhs_ordering_expr_ctxs_ this)
                  | _ :: _ => []
                  end
              ∧ (st = OK →
                 cs = map CallOpen mat ++ map CallOpen (lhs_ordering_expr_ctxs_ this) ++
                      match rhs_ordering_expr_ctxs_ this with
                      | [] => map CallClone (lhs_ordering_expr_ctxs_ this)
                      | _ :: _ => []
                      end
                 ∧ (rhs_ordering_expr_ctxs_ this = [] →
                    Forall2 (is_clone_of state w w')
                      (lhs_ordering_expr_ctxs_ this) (rhs_ordering_expr_ctxs_ this'))))
    as Hfinal.
  { intros (-> & -> & ->). simpl. repeat split; auto.
    exists (map CallOpen mat ++ map CallOpen (lhs_ordering_expr_ctxs_ this) ++ cs3).
    split; [| split].
    - rewrite C3, C2, C1, <- !app_assoc. reflexivity.
    - apply prefix_app, prefix_app, P3.
    - intros Hst. destruct (K3 Hst) as [-> HF]. split; [reflexivity |].
      intros Hnil. eapply Forall2_impl; [exact (HF Hnil) |].
      intros p q (Hn & Hrest). split; [| exact Hrest].
      apply not_elem_of_dom. rewrite <- D1, <- D2. by apply not_elem_of_dom. }
  destruct st3 as [| msg3]; unfold ret; intros [= <- <- <-]; apply Hfinal; auto.
Qed.

Lemma Open_order_witness :
  (∃ cs, calls Examples.opened_world = calls Examples.three_evaluators ++ cs
         ∧ cs = [CallOpen 2; CallOpen 0; CallClone 0]
         ∧ Forall2 (is_clone_of Examples.state0 Examples.three_evaluators Examples.opened_world)
             [0%nat] [3%nat])
  ∧ ∃ w', SortExec.Open Examples.failing_set Examples.state0 Examples.failing_constant_world
          = Done (Error "Divide by zero", Examples.failing_set) w'
          ∧ ∃ pre p post w0,
              open_targets Examples.failing_set = pre ++ p :: post
              ∧ Evaluator.Open p Examples.state0 w0 = Done (Error "Divide by zero") w'
              ∧ calls w' = calls Examples.failing_constant_world ++ map CallOpen (pre ++ [p]).
Proof.
  split.
  - destruct (Open_order Examples.cloning_set Examples.state0 Examples.three_evaluators)
      as (_ & _ & _ & _ & H).
    destruct (H OK (mkSortExecExprs [0%nat] [3%nat] [2%nat] true) Examples.opened_world)
      as (_ & _ & _ & _ & cs & Hc & _ & Hok).
    { vm_compute. reflexivity. }
    destruct (Hok eq_refl) as [Hcs Hclones].
    exists cs. split; [exact Hc |]. split; [exact Hcs |]. exact (Hclones eq_refl).
  - exists (Examples.world_after
              (SortExec.Open Examples.failing_set Examples.state0)
              Examples.failing_constant_world).
    assert (SortExec.Open Examples.failing_set Examples.state0
              Examples.failing_constant_world
            = Done (Error "Divide by zero", Examples.failing_set)
                (Examples.world_after
                   (SortExec.Open Examples.failing_set Examples.state0)
                   Examples.failing_constant_world)) as E.
    { vm_compute. reflexivity. }
    split; [exact E |].
    destruct (Open_order Examples.failing_set Examples.state0
                Examples.failing_constant_world) as (_ & _ & _ & H & _).
    destruct (H _ _ _ E) as (_ & pre & p & post & w0 & Ht & _ & Hp & Hc).
    exists pre, p, post, w0. auto.
Defined.

(* ===================================================================== *)
(** ** Init from serialized expressions                                   *)
(* ===================================================================== *)

Lemma extends_refl w : extends w w.
Proof. by intros ? ? ?. Qed.

Lemma extends_trans w1 w2 w3 : extends w1 w2 → extends w2 w3 → extends w1 w3.
Proof. intros H12 H23 q ev Hq. auto. Qed.

Lemma new_evaluators_fresh w w' exprs ps :
  Forall2 (is_new_evaluator w w') exprs ps → ∀ p, p ∈ ps → objects w !! p = None.
Proof.
  induction 1 as [| e p0 exprs ps [Hn _] _ IH]; intros p Hin.
  - by apply elem_of_nil in Hin.
  - apply elem_of_cons in Hin as [-> | Hin]; auto.
Qed.

Lemma ExprContext_Create_done exprs : ∀ ctxs w,
  ∃ ps w', ExprContext.Create exprs ctxs w = Done (ctxs ++ ps) w'
    ∧ extends w w'
    ∧ Forall2 (is_new_evaluator w w') exprs ps
    ∧ NoDup ps
    ∧ calls w' = calls w ∧ fragments w' = fragments w.
Proof.
  induction exprs as [| e exprs IH]; intros ctxs w; simpl.
  - exists [], w. rewrite app_nil_r.
    repeat split; auto using extends_refl, NoDup_nil_2.
  - unfold bind, alloc.
    set (p0 := fresh (dom (objects w))).
    set (w1 := mkWorld (<[p0 := Evaluator.new_evaluator e None]> (objects w))
                 (fragments w) (calls w) (const_evals w)).
    assert (objects w !! p0 = None) as Hp0 by apply not_elem_of_dom, is_fresh.
    assert (extends w w1) as X1.
    { intros q ev Hq. simpl. rewrite lookup_insert_ne; [exact Hq | congruence]. }
    destruct (IH (ctxs ++ [p0]) w1) as (ps & w' & E & X & HF & Hnd & Hc & Hf).
    exists (p0 :: ps), w'. split; [by rewrite E, <- app_assoc |].
    split; [eapply extends_trans; eauto |].
    split; [| split; [| auto]].
    + constructor.
      * split; [exact Hp0 |]. apply X. simpl. apply lookup_insert_eq.
      * eapply Forall2_impl; [exact HF |]. intros e' p' [Hn Hs].
        split; [eapply extends_None; eauto | exact Hs].
    + apply NoDup_cons. split; [| exact Hnd].
      intros Hin. apply (new_evaluators_fresh _ _ _ _ HF) in Hin. simpl in Hin.
      rewrite lookup_insert_eq in Hin. discriminate.
Qed.

Section InitFacts.

Context {TExpr : Type}.
Variable CreateExprTrees : list TExpr → Status * list ScalarExpr.

(** C3: Init from serialized expressions always completes; when it
    returns OK, materialize_tuple is true if the list of materialization
    expressions was supplied and false if it was not, and a newly
    constructed evaluator, at a fresh address, has been appended to the
    lhs list for every deserialised ordering expression and to the
    materialization list for every deserialised materialization
    expression.  It returns OK whenever deserialisation succeeds. *)
Theorem Init_exprs_builds thrift_ordering_exprs thrift_sort_tuple_slot_exprs this w :
  ∃ st this' w',
    SortExec.Init_exprs TExpr CreateExprTrees thrift_ordering_exprs
      thrift_sort_tuple_slot_exprs this w = Done (st, this') w'
    ∧ (fst (CreateExprTrees thrift_ordering_exprs) = OK →
       (∀ t, thrift_sort_tuple_slot_exprs = Some t → fst (CreateExprTrees t) = OK) →
       st = OK)
    ∧ (st = OK →
       materialize_tuple_ this'
         = match thrift_sort_tuple_slot_exprs with Some _ => true | None => false end
       ∧ rhs_ordering_expr_ctxs_ this' = rhs_ordering_expr_ctxs_ this
       ∧ ∃ exprs new_lhs,
           CreateExprTrees thrift_ordering_exprs = (OK, exprs)
           ∧ lhs_ordering_expr_ctxs_ this' = lhs_ordering_expr_ctxs_ this ++ new_lhs
           ∧ Forall2 (is_new_evaluator w w') exprs new_lhs
           ∧ match thrift_sort_tuple_slot_exprs with
             | Some t =>
               ∃ mexprs new_mat,
                 CreateExprTrees t = (OK, mexprs)
                 ∧ sort_tuple_slot_expr_ctxs_ this'
                   = sort_tuple_slot_expr_ctxs_ this ++ new_mat
                 ∧ Forall2 (is_new_evaluator w w') mexprs new_mat
                 ∧ NoDup (new_lhs ++ new_mat)
             | None =>
               sort_tuple_slot_expr_ctxs_ this' = sort_tuple_slot_expr_ctxs_ this
               ∧ NoDup new_lhs
             end).
Proof.
  unfold SortExec.Init_exprs.
  destruct (CreateExprTrees thrift_ordering_exprs) as [[| msg] exprs] eqn:El.
  2:{ eexists _, _, _. split; [reflexivity |]. simpl. split; [done | done]. }
  unfold bind.
  destruct (ExprContext_Create_done exprs (lhs_ordering_expr_ctxs_ this) w)
    as (new_lhs & w1 & E1 & X1 & F1 & N1 & _ & _).
  rewrite E1.
  destruct thrift_sort_tuple_slot_exprs as [t |]; simpl.
  - destruct (CreateExprTrees t) as [[| msg] mexprs] eqn:Em.
    2:{ eexists _, _, _. split; [reflexivity |]. simpl. split; [| done].
        intros _ H. specialize (H t eq_refl). by rewrite Em in H. }
    destruct (ExprContext_Create_done mexprs (sort_tuple_slot_expr_ctxs_ this) w1)
      as (new_mat & w2 & E2 & X2 & F2 & N2 & _ & _).
    rewrite E2. eexists _, _, _. split; [reflexivity |]. simpl.
    split; [done |]. intros _. split; [reflexivity |]. split; [reflexivity |].
    exists exprs, new_lhs. split; [reflexivity |]. split; [reflexivity |]. split.
    + eapply Forall2_impl; [exact F1 |]. intros e p [Hn Hs]. split; auto.
    + exists mexprs, new_mat. split; [reflexivity |]. split; [reflexivity |]. split.
      * eapply Forall2_impl; [exact F2 |]. intros e p [Hn Hs].
        split; [eapply extends_None; eauto | exact Hs].
      * apply NoDup_app. split; [exact N1 |]. split; [| exact N2].
        intros p Hl Hm.
        assert (∃ e, is_new_evaluator w w1 e p) as (e & _ & Hs).
        { clear -F1 Hl. induction F1 as [| e0 p0 ? ? H0 _ IH].
          - by apply elem_of_nil in Hl.
          - apply elem_of_cons in Hl as [-> | Hl]; eauto. }
        rewrite (new_evaluators_fresh _ _ _ _ F2 p Hm) in Hs. discriminate.
  - eexists _, _, _. split; [reflexivity |]. simpl.
    split; [done |]. intros _. split; [reflexivity |]. split; [reflexivity |].
    exists exprs, new_lhs. auto.
Qed.

End InitFacts.

(* ===================================================================== *)
(** ** Sequences of Open and Close without materialization                *)
(* ===================================================================== *)

Lemma Forall_prefix {A} (P : A → Prop) (l1 l2 : list A) :
  l1 `prefix_of` l2 → Forall P l2 → Forall P l1.
Proof. intros [k ->] H. by apply Forall_app in H as [H _]. Qed.

Lemma Evaluator_Close_inv p state w w' :
  Evaluator.Close p state w = Done tt w' →
  calls w' = calls w ++ [CallClose p]
  ∧ dom (objects w') = dom (objects w)
  ∧ (∀ q, q ≠ p → objects w' !! q = objects w !! q).
Proof.
  unfold Evaluator.Close. run_step.
  destruct (objects w !! p) as [ev |] eqn:Hev; [| done]. simpl.
  assert (p ∈ dom (objects w)) as Hdom by (apply elem_of_dom; eauto).
  destruct (closed_ ev); [intros [= <-]; auto |].
  destruct (is_clone_ ev); simpl; intros [= <-]; simpl;
    (repeat split; [by apply dom_insert_valid | intros q Hq; by rewrite lookup_insert_ne]).
Qed.

Lemma ExprContext_Close_inv ctxs state : ∀ w w',
  ExprContext.Close ctxs state w = Done tt w' →
  calls w' = calls w ++ map CallClose ctxs
  ∧ dom (objects w') = dom (objects w)
  ∧ (∀ q, q ∉ ctxs → objects w' !! q = objects w !! q).
Proof.
  induction ctxs as [| p ctxs IH]; intros w w'; simpl.
  - unfold ret. intros [= <-]. by rewrite app_nil_r.
  - unfold bind. destruct (Evaluator.Close p state w) as [[] w1 |] eqn:E1; [| done].
    apply Evaluator_Close_inv in E1 as (C1 & D1 & F1).
    intros H. apply IH in H as (C2 & D2 & F2). split; [| split].
    + rewrite C2, C1, <- app_assoc. reflexivity.
    + congruence.
    + intros q Hq. apply not_elem_of_cons in Hq as [Hne Hq].
      rewrite F2, F1; auto.
Qed.

Lemma ExprContext_Open_frame ctxs state : ∀ w st w',
  ExprContext.Open ctxs state w = Done st w' →
  ∀ q, q ∉ ctxs → objects w' !! q = objects w !! q.
Proof.
  induction ctxs as [| p ctxs IH]; intros w st w'; simpl.
  - unfold ret. by intros [= <- <-].
  - unfold RETURN_IF_ERROR, bind.
    destruct (Evaluator.Open p state w) as [st1 w1 |] eqn:E1; [| done].
    apply Evaluator_Open_inv in E1 as (_ & _ & _ & F1).
    intros H q Hq. apply not_elem_of_cons in Hq as [Hne Hq].
    destruct st1.
    + rewrite (IH _ _ _ H q Hq). auto.
    + unfold ret in H. injection H as <- <-. auto.
Qed.

(** Whatever its status, cloning only appends addresses that were free. *)
Lemma ExprContext_Clone_fresh ctxs state : ∀ acc w st new w',
  ExprContext.Clone ctxs state acc w = Done (st, new) w' →
  ∃ qs, new = acc ++ qs ∧ Forall (λ q, objects w !! q = None) qs.
Proof.
  induction ctxs as [| p ctxs IH]; intros acc w st new w'; simpl.
  - unfold ret. intros [= <- <- <-]. exists []. by rewrite app_nil_r.
  - unfold bind.
    destruct (Evaluator.Clone p state (state_mem_pool state) w)
      as [[st1 r] w1 |] eqn:E1; [| done].
    apply Evaluator_Clone_inv in E1 as (_ & X1 & H1).
    destruct st1 as [| msg].
    + destruct H1 as (ev & q & -> & _ & _ & Hq & _).
      intros H. apply IH in H as (qs & -> & HF).
      exists (q :: qs). split; [by rewrite <- app_assoc |].
      constructor; [exact Hq |].
      eapply Forall_impl; [exact HF |]. intros q'. by apply extends_None.
    + destruct H1 as (-> & _). unfold ret. intros [= <- <- <-].
      exists []. by rewrite app_nil_r.
Qed.

Section WithoutMaterialization.

Variable state : RuntimeState.

Lemma Open_ignores_materialization this m w :
  materialize_tuple_ this = false →
  SortExec.Open (SortExec.set_sort_tuple_slot this m) state w
  = match SortExec.Open this state w with
    | Done (st, this') w' => Done (st, SortExec.set_sort_tuple_slot this' m) w'
    | Fault => Fault
    end.
Proof.
  intros Hmt. unfold SortExec.Open, bind. simpl. rewrite Hmt. unfold ret.
  destruct (ExprContext.Open (lhs_ordering_expr_ctxs_ this) state w)
    as [[| msg] w1 |]; try reflexivity.
  destruct (ExprContext.CloneIfNotExists _ state _ w1) as [[[| msg] rhs] w2 |];
    reflexivity.
Qed.

Lemma Close_ignores_materialization this m w :
  materialize_tuple_ this = false →
  SortExec.Close (SortExec.set_sort_tuple_slot this m) state w
  = SortExec.Close this state w.
Proof. intros Hmt. unfold SortExec.Close. simpl. by rewrite Hmt. Qed.

Lemma Open_keeps_flag this w st this' w' :
  SortExec.Open this state w = Done (st, this') w' →
  materialize_tuple_ this' = materialize_tuple_ this
  ∧ sort_tuple_slot_expr_ctxs_ this' = sort_tuple_slot_expr_ctxs_ this
  ∧ lhs_ordering_expr_ctxs_ this' = lhs_ordering_expr_ctxs_ this.
Proof.
  unfold SortExec.Open, bind.
  destruct (if materialize_tuple_ this then _ else _) as [[| msg1] w1 |];
    [| unfold ret; intros [= <- <- <-]; auto | done].
  destruct (ExprContext.Open _ state w1) as [[| msg2] w2 |];
    [| unfold ret; intros [= <- <- <-]; auto | done].
  destruct (ExprContext.CloneIfNotExists _ state _ w2) as [[[| msg3] rhs] w3 |];
    [| | done]; unfold ret; intros [= <- <- <-]; auto.
Qed.

Lemma run_ignores_materialization ops : ∀ this m w,
  materialize_tuple_ this = false →
  SortExec.run ops (SortExec.set_sort_tuple_slot this m) state w
  = with_materialization m (SortExec.run ops this state w).
Proof.
  induction ops as [| [|] ops IH]; intros this m w Hmt; simpl.
  - reflexivity.
  - unfold bind. rewrite Open_ignores_materialization by exact Hmt.
    destruct (SortExec.Open this state w) as [[st this1] w1 |] eqn:E; [| reflexivity].
    simpl. apply IH. apply Open_keeps_flag in E as (-> & _). exact Hmt.
  - unfold bind. rewrite Close_ignores_materialization by exact Hmt.
    destruct (SortExec.Close this state w) as [[] w1 |]; [| reflexivity].
    by apply IH.
Qed.

(** What Open reaches when the flag is off: the lhs evaluators and
    addresses that were free. *)
Lemma Open_footprint this w st this' w' :
  materialize_tuple_ this = false →
  SortExec.Open this state w = Done (st, this') w' →
  (∀ q, q ∈ rhs_ordering_expr_ctxs_ this' →
        q ∈ rhs_ordering_expr_ctxs_ this ∨ objects w !! q = None)
  ∧ (∀ p, valid w p → valid w' p)
  ∧ (∀ p, valid w p → p ∉ lhs_ordering_expr_ctxs_ this →
          objects w' !! p = objects w !! p)
  ∧ ∃ cs, calls w' = calls w ++ cs
          ∧ Forall (λ c, target c ∈ lhs_ordering_expr_ctxs_ this) cs.
Proof.
  intros Hmt. unfold SortExec.Open, bind. rewrite Hmt. unfold ret at 1.
  destruct (ExprContext.Open (lhs_ordering_expr_ctxs_ this) state w)
    as [st2 w2 |] eqn:E2; [| done].
  pose proof (ExprContext_Open_frame _ _ _ _ _ E2) as F2.
  apply ExprContext_Open_inv in E2 as (D2 & cs2 & C2 & P2 & _).
  assert (Forall (λ c, target c ∈ lhs_ordering_expr_ctxs_ this) cs2) as T2.
  { eapply Forall_prefix; [exact P2 |]. apply Forall_map, Forall_forall. auto. }
  destruct st2 as [| msg2].
  2:{ unfold ret. intros [= <- <- <-]. split; [auto |].
      split; [unfold valid; intros p; by rewrite D2 |]. split; [auto |]. eauto. }
  destruct (ExprContext.CloneIfNotExists (lhs_ordering_expr_ctxs_ this) state
              (rhs_ordering_expr_ctxs_ this) w2) as [[st3 rhs'] w3 |] eqn:E3; [| done].
  assert (∃ qs, rhs' = rhs_ordering_expr_ctxs_ this ++ qs
                ∧ Forall (λ q, objects w2 !! q = None) qs) as (qs & Hrhs & Hqs).
  { unfold ExprContext.CloneIfNotExists in E3.
    destruct (rhs_ordering_expr_ctxs_ this) as [| r0 rhs].
    - by apply ExprContext_Clone_fresh in E3.
    - unfold ret in E3. injection E3 as <- <- <-. exists []. by rewrite app_nil_r. }
  apply CloneIfNotExists_inv in E3 as (_ & X3 & cs3 & C3 & P3 & _).
  assert (Forall (λ c, target c ∈ lhs_ordering_expr_ctxs_ this) cs3) as T3.
  { eapply Forall_prefix; [exact P3 |].
    destruct (rhs_ordering_expr_ctxs_ this); [| constructor].
    apply Forall_map, Forall_forall. auto. }
  assert (∀ p, valid w p → objects w3 !! p = objects w2 !! p) as F3.
  { intros p Hp. unfold valid in Hp. rewrite <- D2 in Hp.
    apply elem_of_dom in Hp as [ev Hev]. rewrite Hev. by apply X3. }
  assert (this' = SortExec.set_rhs this rhs' ∧ w' = w3 →
          (∀ q, q ∈ rhs_ordering_expr_ctxs_ this' →
                q ∈ rhs_ordering_expr_ctxs_ this ∨ objects w !! q = None)
          ∧ (∀ p, valid w p → valid w' p)
          ∧ (∀ p, valid w p → p ∉ lhs_ordering_expr_ctxs_ this →
                  objects w' !! p = objects w !! p)
          ∧ ∃ cs, calls w' = calls w ++ cs
                  ∧ Forall (λ c, target c ∈ lhs_ordering_expr_ctxs_ this) cs)
    as Hfinal.
  { intros (-> & ->). simpl. split; [| split; [| split]].
    - intros q Hq. rewrite Hrhs in Hq. apply elem_of_app in Hq as [Hq | Hq]; [by left |].
      right. rewrite Forall_forall in Hqs. apply Hqs in Hq.
      apply not_elem_of_dom. rewrite <- D2. by apply not_elem_of_dom.
    - intros p Hp. apply valid_lookup. rewrite F3 by exact Hp.
      apply valid_lookup. unfold valid in *. by rewrite D2.
    - intros p Hp Hn. rewrite F3 by exact Hp. auto.
    - exists (cs2 ++ cs3). split.
      + rewrite C3, C2, <- app_assoc. reflexivity.
      + apply Forall_app. auto. }
  destruct st3; unfold ret; intros [= <- <- <-]; apply Hfinal; auto.
Qed.

Lemma Close_footprint this w w' :
  materialize_tuple_ this = false →
  SortExec.Close this state w = Done tt w' →
  (∀ p, valid w p → valid w' p)
  ∧ (∀ p, p ∉ rhs_ordering_expr_ctxs_ this → p ∉ lhs_ordering_expr_ctxs_ this →
          objects w' !! p = objects w !! p)
  ∧ calls w' = calls w ++ map CallClose
                 (rhs_ordering_expr_ctxs_ this ++ lhs_ordering_expr_ctxs_ this).
Proof.
  intros Hmt. unfold SortExec.Close, bind. rewrite Hmt. unfold ret at 1.
  destruct (ExprContext.Close (rhs_ordering_expr_ctxs_ this) state w)
    as [[] w1 |] eqn:E1; [| done].
  apply ExprContext_Close_inv in E1 as (C1 & D1 & F1).
  intros E2. apply ExprContext_Close_inv in E2 as (C2 & D2 & F2).
  split; [| split].
  - unfold valid. intros p. by rewrite D2, D1.
  - intros p Hr Hl. rewrite F2, F1; auto.
  - rewrite C2, C1, map_app, <- app_assoc. reflexivity.
Qed.

End WithoutMaterialization.

(** Over any sequence of Open and Close on a set whose flag is off, an
    evaluator outside the lhs and rhs lists is neither called nor
    changed. *)
Lemma run_footprint state ops : ∀ this w this' w',
  materialize_tuple_ this = false →
  SortExec.run ops this state w = Done this' w' →
  sort_tuple_slot_expr_ctxs_ this' = sort_tuple_slot_expr_ctxs_ this
  ∧ materialize_tuple_ this' = false
  ∧ ∃ cs, calls w' = calls w ++ cs
      ∧ ∀ p, valid w p →
             p ∉ lhs_ordering_expr_ctxs_ this → p ∉ rhs_ordering_expr_ctxs_ this →
             objects w' !! p = objects w !! p ∧ Forall (λ c, target c ≠ p) cs.
Proof.
  induction ops as [| [|] ops IH]; intros this w this' w' Hmt; simpl.
  - unfold ret. intros [= <- <-]. repeat split; auto.
    exists []. rewrite app_nil_r. auto.
  - unfold bind.
    destruct (SortExec.Open this state w) as [[st this1] w1 |] eqn:E; [| done].
    simpl. intros Hrun.
    destruct (Open_keeps_flag _ _ _ _ _ _ E) as (Hmt1 & Hmat1 & Hlhs1).
    destruct (Open_footprint _ _ _ _ _ _ Hmt E) as (Hrhs & Hval & Hframe & cs1 & C1 & T1).
    apply IH in Hrun as (Hmat & Hmt' & cs2 & C2 & H2); [| congruence].
    split; [congruence |]. split; [exact Hmt' |].
    exists (cs1 ++ cs2). split; [rewrite C2, C1, <- app_assoc; reflexivity |].
    intros p Hp Hl Hr.
    destruct (H2 p) as [Hsame Hcalls]; [by apply Hval | congruence | |].
    { intros Hin. apply Hrhs in Hin as [Hin | Hin]; [done |].
      apply valid_lookup in Hp as [ev Hev]. congruence. }
    split; [rewrite Hsame; auto |].
    apply Forall_app. split; [| exact Hcalls].
    eapply Forall_impl; [exact T1 |]. simpl. intros c Hc Heq. subst p. done.
  - unfold bind.
    destruct (SortExec.Close this state w) as [[] w1 |] eqn:E; [| done].
    intros Hrun.
    destruct (Close_footprint _ _ _ _ Hmt E) as (Hval & Hframe & C1).
    apply IH in Hrun as (Hmat & Hmt' & cs2 & C2 & H2); [| exact Hmt].
    split; [exact Hmat |]. split; [exact Hmt' |].
    exists (map CallClose (rhs_ordering_expr_ctxs_ this ++ lhs_ordering_expr_ctxs_ this) ++ cs2).
    split; [rewrite C2, C1, <- app_assoc; reflexivity |].
    intros p Hp Hl Hr.
    destruct (H2 p) as [Hsame Hcalls]; auto.
    split; [rewrite Hsame; auto |].
    apply Forall_app. split; [| exact Hcalls].
    apply Forall_map, Forall_forall. simpl. intros q Hq Heq. subst p.
    apply elem_of_app in Hq as [Hq | Hq]; done.
Qed.

(** C5: with materialize_tuple off, (1) a sequence of Open and Close
    behaves the same whatever the materialization list holds, and leaves
    that list as it is; (2) it makes no call on, and does not change, a
    materialization evaluator (one that is not also in the lhs or rhs
    list); (3) Close completes as soon as the rhs and lhs evaluators are
    live, in particular when there are no materialization evaluators. *)
Theorem materialization_untouched this state ops w :
  materialize_tuple_ this = false →
  (∀ m, SortExec.run ops (SortExec.set_sort_tuple_slot this m) state w
        = with_materialization m (SortExec.run ops this state w))
  ∧ (∀ this' w',
       SortExec.run ops this state w = Done this' w' →
       sort_tuple_slot_expr_ctxs_ this' = sort_tuple_slot_expr_ctxs_ this
       ∧ ∃ cs, calls w' = calls w ++ cs
           ∧ ∀ p, p ∈ sort_tuple_slot_expr_ctxs_ this → valid w p →
                  p ∉ lhs_ordering_expr_ctxs_ this →
                  p ∉ rhs_ordering_expr_ctxs_ this →
                  objects w' !! p = objects w !! p
                  ∧ Forall (λ c, target c ≠ p) cs)
  ∧ (Forall (valid w) (rhs_ordering_expr_ctxs_ this ++ lhs_ordering_expr_ctxs_ this) →
     ∃ w', SortExec.Close this state w = Done tt w').
Proof.
  intros Hmt. split; [| split].
  - intros m. by apply run_ignores_materialization.
  - intros this' w' Hrun.
    apply run_footprint in Hrun as (Hmat & _ & cs & C & H); [| exact Hmt].
    split; [exact Hmat |]. exists cs. split; [exact C |]. intros p _. apply H.
  - intros Hv. apply Forall_app in Hv as [Hr Hl].
    unfold SortExec.Close, bind. rewrite Hmt. unfold ret at 1.
    destruct (ExprContext_Close_done state _ w Hr) as (w1 & E1 & _ & D1).
    rewrite E1.
    destruct (ExprContext_Close_done state (lhs_ordering_expr_ctxs_ this) w1)
      as (w2 & E2 & _ & _); [| eauto].
    eapply Forall_impl; [exact Hl |]. intros q Hq. unfold valid in *. by rewrite D1.
Qed.

Lemma materialization_untouched_witness :
  SortExec.run [SortExec.OpOpen; SortExec.OpClose; SortExec.OpOpen; SortExec.OpClose]
    (SortExec.set_sort_tuple_slot Examples.unmaterialized_set []) Examples.state0
    Examples.three_evaluators
  = with_materialization []
      (SortExec.run [SortExec.OpOpen; SortExec.OpClose; SortExec.OpOpen; SortExec.OpClose]
         Examples.unmaterialized_set Examples.state0 Examples.three_evaluators)
  ∧ ∃ w', SortExec.Close Examples.unmaterialized_set Examples.state0
            Examples.three_evaluators = Done tt w'.
Proof.
  destruct (materialization_untouched Examples.unmaterialized_set Examples.state0
              [SortExec.OpOpen; SortExec.OpClose; SortExec.OpOpen; SortExec.OpClose]
              Examples.three_evaluators eq_refl) as (H1 & _ & H3).
  split; [apply H1 |]. apply H3.
  unfold valid. repeat constructor; vm_compute; reflexivity.
Defined.

(* ===================================================================== *)
(** ** The lifecycle of one evaluator                                     *)
(* ===================================================================== *)

Lemma forward_same_objects w w' : objects w' = objects w → forward w w'.
Proof. intros Ho q ev Hq. rewrite Ho. eauto. Qed.

Lemma forward_extends w w' : extends w w' → forward w w'.
Proof. intros Hx q ev Hq. eauto. Qed.

Lemma forward_insert w w' p ev ev' :
  objects w !! p = Some ev →
  (rank (phase ev) ≤ rank (phase ev'))%nat →
  objects w' = <[p := ev']> (objects w) →
  forward w w'.
Proof.
  intros Hp Hr Ho q evq Hq. rewrite Ho.
  destruct (decide (p = q)) as [<- | Hne].
  - rewrite lookup_insert_eq. exists ev'. split; [reflexivity |]. congruence.
  - rewrite lookup_insert_ne by exact Hne. eauto.
Qed.

Lemma phase_only_ctxs_changed ev ev' : only_ctxs_changed ev ev' → phase ev' = phase ev.
Proof. intros (ctxs & -> & _). reflexivity. Qed.

Lemma rank_phase_set_opened ev :
  (rank (phase ev) ≤ rank (phase (Evaluator.set_opened ev)))%nat.
Proof. unfold phase. simpl. destruct (closed_ ev), (opened_ ev); simpl; lia. Qed.

Lemma rank_phase_set_closed ev ctxs :
  (rank (phase ev) ≤ rank (phase (Evaluator.set_closed ev ctxs)))%nat.
Proof. unfold phase. simpl. destruct (closed_ ev), (opened_ ev); simpl; lia. Qed.

Lemma perform_forward op p state w w' :
  perform op p state w = Done tt w' → forward w w'.
Proof.
  destruct op as [rd tracker | | pool | t row |]; simpl.
  - unfold Evaluator.Prepare, Evaluator.CreateFnCtxs. run_step.
    destruct (objects w !! p) as [ev |] eqn:Hev; [| done]. simpl.
    destruct (CreateFnCtxs_loop_done (nodes (root_ ev)) tracker
                (mkWorld (objects w) (fragments w)
                   (calls w ++ [CallPrepare p rd tracker]) (const_evals w)))
      as (ctxs & w1 & E & Ho & _ & _).
    rewrite E. intros [= <-].
    eapply forward_insert; [exact Hev | | simpl; by rewrite Ho].
    unfold phase. simpl. lia.
  - unfold Evaluator.Open. run_step.
    destruct (objects w !! p) as [ev |] eqn:Hev; [| done]. simpl.
    destruct (opened_ ev) eqn:Hop.
    + intros [= <-]. by apply forward_same_objects.
    + destruct (Evaluator.open_nodes (nodes (root_ ev)) (Evaluator.set_opened ev) _)
        as [ev1 w1 |] eqn:E; [| done].
      apply open_nodes_frame in E as (Ho & _ & Hch). simpl in *.
      intros [= <-].
      eapply forward_insert; [exact Hev | | simpl; by rewrite Ho].
      rewrite (phase_only_ctxs_changed _ _ Hch). apply rank_phase_set_opened.
  - unfold bind.
    destruct (Evaluator.Clone p state pool w) as [[st r] w1 |] eqn:E; [| done].
    apply Evaluator_Clone_inv in E as (_ & X & _).
    unfold ret. intros [= <-]. by apply forward_extends.
  - unfold Evaluator.GetVal. run_step.
    destruct (objects w !! p) as [ev |] eqn:Hev; [| done]. simpl.
    destruct (opened_ ev); simpl; [| done].
    destruct (Evaluator.eval (root_ ev) t (Some row) ev) as [[[v ev1] l] |] eqn:E; [| done].
    simpl. intros [= <-].
    eapply forward_insert; [exact Hev | | reflexivity].
    by rewrite (phase_only_ctxs_changed _ _ (eval_only_ctxs_changed _ _ _ _ _ _ _ E)).
  - unfold Evaluator.Close. run_step.
    destruct (objects w !! p) as [ev |] eqn:Hev; [| done]. simpl.
    destruct (closed_ ev) eqn:Hcl; [intros [= <-]; by apply forward_same_objects |].
    destruct (is_clone_ ev); simpl; intros [= <-];
      (eapply forward_insert; [exact Hev | apply rank_phase_set_closed | reflexivity]).
Qed.

Lemma Evaluator_Open_again p state w st w1 :
  Evaluator.Open p state w = Done st w1 →
  ∃ w2, Evaluator.Open p state w1 = Done OK w2 ∧ only_records (CallOpen p) w1 w2.
Proof.
  intros H. apply Evaluator_Open_inv in H as (_ & _ & (ev' & Hev' & Hop) & _).
  unfold Evaluator.Open. run_step. rewrite Hev'. simpl. rewrite Hop.
  eexists. split; reflexivity.
Qed.

Lemma Evaluator_Close_again p state w w1 :
  Evaluator.Close p state w = Done tt w1 →
  ∃ w2, Evaluator.Close p state w1 = Done tt w2 ∧ only_records (CallClose p) w1 w2.
Proof.
  unfold Evaluator.Close at 1. run_step.
  destruct (objects w !! p) as [ev |] eqn:Hev; [| done]. simpl.
  assert (∀ ev', objects w1 !! p = Some ev' → closed_ ev' = true →
                 ∃ w2, Evaluator.Close p state w1 = Done tt w2
                       ∧ only_records (CallClose p) w1 w2) as Hdone.
  { intros ev' Hev' Hcl. unfold Evaluator.Close. run_step. rewrite Hev'. simpl.
    rewrite Hcl. eexists. split; reflexivity. }
  destruct (closed_ ev) eqn:Hcl.
  - intros [= <-]. by apply (Hdone ev).
  - destruct (is_clone_ ev); simpl; intros [= <-];
      (eapply Hdone; [simpl; apply lookup_insert_eq | reflexivity]).
Qed.

(** C6: every operation leaves each evaluator at or after the lifecycle
    state it was in (Created, then Opened, then Closed); once Open has
    completed, Open again returns OK and only records the call: no
    constant is computed and nothing of the evaluators or the
    fragment-scope states changes; likewise Close after Close. *)
Theorem evaluator_lifecycle p state w :
  (∀ op w', perform op p state w = Done tt w' → forward w w')
  ∧ (∀ st w1, Evaluator.Open p state w = Done st w1 →
       ∃ w2, Evaluator.Open p state w1 = Done OK w2
             ∧ only_records (CallOpen p) w1 w2)
  ∧ (∀ w1, Evaluator.Close p state w = Done tt w1 →
       ∃ w2, Evaluator.Close p state w1 = Done tt w2
             ∧ only_records (CallClose p) w1 w2).
Proof.
  split; [| split].
  - intros op w'. apply perform_forward.
  - intros st w1. apply Evaluator_Open_again.
  - intros w1. apply Evaluator_Close_again.
Qed.

Lemma evaluator_lifecycle_witness :
  ∃ w2, Evaluator.Open 0 Examples.state0 Examples.constant_world_opened = Done OK w2
        ∧ const_evals Examples.constant_world = 0%nat
        ∧ const_evals Examples.constant_world_opened = 1%nat
        ∧ const_evals w2 = 1%nat.
Proof.
  destruct (evaluator_lifecycle 0 Examples.state0 Examples.constant_world) as (_ & H & _).
  destruct (H OK Examples.constant_world_opened) as (w2 & E & Hrec).
  { vm_compute. reflexivity. }
  exists w2. split; [exact E |]. rewrite Hrec. simpl.
  repeat split; vm_compute; reflexivity.
Defined.

(* ===================================================================== *)
(** ** Clone                                                              *)
(* ===================================================================== *)

(** C7: on an evaluator that has not been opened, Clone returns the
    precondition error and makes no evaluator; on an opened one (as it is
    after Open has completed) it returns OK and a new evaluator, at a
    fresh address, whose contexts refer to the same fragment-scope states
    as the original's, each with fresh thread-scope state drawing on the
    given pool, and which is a clone and counts as opened; the original
    and the fragment-scope store are untouched. *)
Theorem Clone_contract p state mem_pool w ev :
  objects w !! p = Some ev →
  (opened_ ev = false →
   ∃ w', Evaluator.Clone p state mem_pool w
         = Done (Evaluator.clone_precondition_error, None) w'
         ∧ objects w' = objects w ∧ fragments w' = fragments w)
  ∧ (opened_ ev = true →
     ∃ q ev' w',
       Evaluator.Clone p state mem_pool w = Done (OK, Some q) w'
       ∧ objects w !! q = None
       ∧ objects w' !! q = Some ev'
       ∧ objects w' !! p = Some ev
       ∧ fragments w' = fragments w
       ∧ map fragment_state_ (fn_ctxs_ ev') = map fragment_state_ (fn_ctxs_ ev)
       ∧ Forall (λ c, ctx_pool_ c = mem_pool ∧ error_msg_ c = None
                      ∧ ctx_closed_ c = false) (fn_ctxs_ ev')
       ∧ mem_pool_ ev' = Some mem_pool
       ∧ root_ ev' = root_ ev
       ∧ is_clone_ ev' = true
       ∧ opened_ ev' = true
       ∧ closed_ ev' = false)
  ∧ (∀ w0 st, Evaluator.Open p state w0 = Done st w → opened_ ev = true).
Proof.
  intros Hev. split; [| split].
  - intros Hop. unfold Evaluator.Clone. run_step. rewrite Hev. simpl. rewrite Hop.
    simpl. eexists. split; [reflexivity |]. auto.
  - intros Hop. unfold Evaluator.Clone. run_step. rewrite Hev. simpl. rewrite Hop.
    simpl.
    assert (objects w !! fresh (dom (objects w)) = None) as Hfresh
      by apply not_elem_of_dom, is_fresh.
    eexists _, _, _. split; [reflexivity |]. simpl.
    split; [exact Hfresh |]. split; [apply lookup_insert_eq |].
    split; [rewrite lookup_insert_ne; [exact Hev | congruence] |].
    split; [reflexivity |]. split; [| split; [| auto 10]].
    + simpl. generalize (fn_ctxs_ ev). intros l.
      induction l as [| c l IH]; simpl; [reflexivity | by rewrite IH].
    + simpl. generalize (fn_ctxs_ ev). intros l.
      induction l as [| c l IH]; simpl; constructor; auto.
  - intros w0 st H. apply Evaluator_Open_inv in H as (_ & _ & (ev' & Hev' & Hop) & _).
    congruence.
Qed.

Lemma Clone_contract_witness :
  (∃ w', Evaluator.Clone 0 Examples.state0 5%nat Examples.constant_world
         = Done (Evaluator.clone_precondition_error, None) w')
  ∧ (∃ q ev' w', Evaluator.Clone 0 Examples.state0 5%nat Examples.constant_world_opened
                 = Done (OK, Some q) w'
                 ∧ objects w' !! q = Some ev'
                 ∧ map fragment_state_ (fn_ctxs_ ev') = [0%nat]
                 ∧ is_clone_ ev' = true).
Proof.
  split.
  - destruct (Clone_contract 0 Examples.state0 5%nat Examples.constant_world
                (default Examples.two_context_evaluator (objects Examples.constant_world !! 0%nat)))
      as (H & _ & _); [vm_compute; reflexivity |].
    destruct H as (w' & E & _); [vm_compute; reflexivity |]. eauto.
  - destruct (Clone_contract 0 Examples.state0 5%nat Examples.constant_world_opened
                (default Examples.two_context_evaluator (objects Examples.constant_world_opened !! 0%nat)))
      as (_ & H & _); [vm_compute; reflexivity |].
    destruct H as (q & ev' & w' & E & _ & Hq & _ & _ & Hfr & _ & _ & _ & Hcl & _);
      [vm_compute; reflexivity |].
    exists q, ev', w'. split; [exact E |]. split; [exact Hq |]. split; [| exact Hcl].
    rewrite Hfr. vm_compute. reflexivity.
Defined.

(* ===================================================================== *)
(** ** Per-row evaluation and the error channel                           *)
(* ===================================================================== *)













(** *** GetError *)























(* ===================================================================== *)
(** ** Further properties of fn_context and SortExecExprs                *)
(* ===================================================================== *)

(** X1: for an [int] index outside [0, fn_ctxs_.size()) one of the two
    assertions of fn_context fails, and only then; with the assertions
    in place the subscript never reaches outside the array. *)
Theorem fn_context_out_of_range ev i :
  is_int i →
  (fn_context ev i = DCheckFailed
   ↔ (i < 0 ∨ Z.of_nat (length (fn_ctxs_ ev)) <= i))
  ∧ fn_context ev i ≠ OutOfBounds.
Proof.
  intros Hint. unfold fn_context, DCHECK_GE, DCHECK_LT.
  destruct (Z.leb_spec 0 i) as [H0 | H0]; simpl.
  - rewrite (to_size_t_int i Hint H0).
    destruct (Z.ltb_spec i (Z.of_nat (length (fn_ctxs_ ev)))) as [Hlt | Hge]; simpl.
    + destruct (lookup_lt_is_Some_2 (fn_ctxs_ ev) (Z.to_nat i)) as [c Hc]; [lia |].
      rewrite Hc. split; [| discriminate]. split; [discriminate | lia].
    + split; [| discriminate]. split; auto.
  - split; [| discriminate]. split; auto.
Qed.

Lemma fn_context_out_of_range_witness :
  fn_context Examples.two_context_evaluator 2 = DCheckFailed
  ∧ fn_context Examples.two_context_evaluator (-1) = DCheckFailed.
Proof.
  split.
  - apply (fn_context_out_of_range Examples.two_context_evaluator 2);
      [unfold is_int, INT_MIN, INT_MAX; lia | simpl; lia].
  - apply (fn_context_out_of_range Examples.two_context_evaluator (-1));
      [unfold is_int, INT_MIN, INT_MAX; lia | simpl; lia].
Defined.

Section InitErrors.

Context {TExpr : Type}.
Variable CreateExprTrees : list TExpr → Status * list ScalarExpr.

(** X2: Init from serialized expressions fails in exactly two ways.
    Either the ordering expressions do not deserialise, and then nothing
    has changed; or the materialization expressions do not, and then the
    lhs evaluators have already been built and materialize_tuple is
    already true, while the materialization and rhs lists are as before. *)
Theorem Init_exprs_error_paths thrift_ordering_exprs thrift_sort_tuple_slot_exprs
    this w msg this' w' :
  SortExec.Init_exprs TExpr CreateExprTrees thrift_ordering_exprs
    thrift_sort_tuple_slot_exprs this w = Done (Error msg, this') w' →
  (fst (CreateExprTrees thrift_ordering_exprs) = Error msg ∧ this' = this ∧ w' = w)
  ∨ (∃ exprs t new_lhs,
       CreateExprTrees thrift_ordering_exprs = (OK, exprs)
       ∧ thrift_sort_tuple_slot_exprs = Some t
       ∧ fst (CreateExprTrees t) = Error msg
       ∧ materialize_tuple_ this' = true
       ∧ lhs_ordering_expr_ctxs_ this' = lhs_ordering_expr_ctxs_ this ++ new_lhs
       ∧ Forall2 (is_new_evaluator w w') exprs new_lhs
       ∧ sort_tuple_slot_expr_ctxs_ this' = sort_tuple_slot_expr_ctxs_ this
       ∧ rhs_ordering_expr_ctxs_ this' = rhs_ordering_expr_ctxs_ this).
Proof.
  unfold SortExec.Init_exprs.
  destruct (CreateExprTrees thrift_ordering_exprs) as [[| msg0] exprs] eqn:El.
  2:{ unfold ret. intros [= <- <- <-]. left. auto. }
  unfold bind.
  destruct (ExprContext_Create_done exprs (lhs_ordering_expr_ctxs_ this) w)
    as (new_lhs & w1 & E1 & X1 & F1 & _).
  rewrite E1.
  destruct thrift_sort_tuple_slot_exprs as [t |]; simpl; [| unfold ret; done].
  destruct (CreateExprTrees t) as [[| msg1] mexprs] eqn:Em.
  - destruct (ExprContext_Create_done mexprs (sort_tuple_slot_expr_ctxs_ this) w1)
      as (new_mat & w2 & E2 & _).
    rewrite E2. unfold ret. done.
  - unfold ret. intros [= <- <- <-]. right.
    exists exprs, t, new_lhs. rewrite Em. simpl. repeat split; auto.
Qed.

(** X3: whatever it returns, Init from a TSortInfo only adds: every
    evaluator there was is unchanged, no call is made on any evaluator,
    the rhs list is untouched, and the lhs and materialization lists are
    extended by evaluators at addresses that were free. *)
Theorem Init_only_adds sort_info this w st this' w' :
  SortExec.Init TExpr CreateExprTrees sort_info this w = Done (st, this') w' →
  extends w w'
  ∧ calls w' = calls w
  ∧ fragments w' = fragments w
  ∧ rhs_ordering_expr_ctxs_ this' = rhs_ordering_expr_ctxs_ this
  ∧ (∃ l, lhs_ordering_expr_ctxs_ this' = lhs_ordering_expr_ctxs_ this ++ l
          ∧ Forall (λ p, objects w !! p = None ∧ valid w' p) l)
  ∧ (∃ m, sort_tuple_slot_expr_ctxs_ this' = sort_tuple_slot_expr_ctxs_ this ++ m
          ∧ Forall (λ p, objects w !! p = None ∧ valid w' p) m).
Proof.
  unfold SortExec.Init, SortExec.Init_exprs.
  destruct (CreateExprTrees (SortExec.ordering_exprs TExpr sort_info))
    as [[| msg0] exprs] eqn:El.
  2:{ unfold ret. intros [= <- <- <-].
      repeat split; auto using extends_refl; exists []; by rewrite app_nil_r. }
  unfold bind.
  destruct (ExprContext_Create_done exprs (lhs_ordering_expr_ctxs_ this) w)
    as (new_lhs & w1 & E1 & X1 & F1 & _ & C1 & Fr1).
  rewrite E1.
  assert (∀ w2, extends w1 w2 →
            Forall (λ p, objects w !! p = None ∧ valid w2 p) new_lhs) as Hl.
  { intros w2 X2. clear -F1 X2. induction F1 as [| e p es ps [Hn Hs] _ IH]; constructor; auto.
    split; [exact Hn |]. apply valid_lookup. apply X2 in Hs. eauto. }
  destruct (SortExec.sort_tuple_slot_exprs TExpr sort_info) as [t |]; simpl.
  - destruct (CreateExprTrees t) as [[| msg1] mexprs] eqn:Em.
    + destruct (ExprContext_Create_done mexprs (sort_tuple_slot_expr_ctxs_ this) w1)
        as (new_mat & w2 & E2 & X2 & F2 & _ & C2 & Fr2).
      rewrite E2. unfold ret. intros [= <- <- <-]. simpl.
      split; [eapply extends_trans; eauto |]. split; [congruence |].
      split; [congruence |]. split; [reflexivity |]. split; [eauto |].
      exists new_mat. split; [reflexivity |].
      clear -F2 X1. induction F2 as [| e p es ps [Hn Hs] _ IH]; constructor; auto.
      split; [eapply extends_None; eauto |]. apply valid_lookup. eauto.
    + unfold ret. intros [= <- <- <-]. simpl.
      repeat split; auto using extends_refl; [eauto using extends_refl |].
      exists []. by rewrite app_nil_r.
  - unfold ret. intros [= <- <- <-]. simpl.
    repeat split; auto using extends_refl; [eauto using extends_refl |].
    exists []. by rewrite app_nil_r.
Qed.

End InitErrors.

Lemma Init_exprs_error_paths_witness :
  SortExec.Init_exprs (option ScalarExpr) Examples.deserialise
    [Some (Examples.slot_ref 0)] (Some [None]) Examples.fresh_set Examples.empty_world
  = Done (Error "malformed expression", mkSortExecExprs [0%nat] [] [] true)
      Examples.half_initialised_world
  ∧ valid Examples.half_initialised_world 0.
Proof.
  assert (SortExec.Init_exprs (option ScalarExpr) Examples.deserialise
            [Some (Examples.slot_ref 0)] (Some [None]) Examples.fresh_set Examples.empty_world
          = Done (Error "malformed expression", mkSortExecExprs [0%nat] [] [] true)
              Examples.half_initialised_world) as E by (vm_compute; reflexivity).
  split; [exact E |].
  destruct (Init_exprs_error_paths Examples.deserialise _ _ _ _ _ _ _ E)
    as [(Hf & _) | (exprs & t & new_lhs & _ & _ & _ & _ & Hl & HF & _)].
  - vm_compute in Hf. discriminate.
  - simpl in Hl. subst new_lhs. inversion HF as [| ? ? ? ? [_ Hs] _]; subst.
    apply valid_lookup. eauto.
Defined.

Lemma Init_only_adds_witness :
  extends Examples.three_evaluators
    (Examples.world_after
       (SortExec.Init (option ScalarExpr) Examples.deserialise
          (SortExec.mkTSortInfo _ [Some (Examples.slot_ref 1)] (Some []))
          Examples.materializing_set)
       Examples.three_evaluators).
Proof.
  eapply (Init_only_adds Examples.deserialise
            (SortExec.mkTSortInfo _ [Some (Examples.slot_ref 1)] (Some []))
            Examples.materializing_set Examples.three_evaluators OK
            (mkSortExecExprs [0%nat; 3%nat] [1%nat] [2%nat] true)).
  vm_compute. reflexivity.
Defined.

Lemma Evaluator_Prepare_inv p state rd tracker w st w' :
  Evaluator.Prepare p state rd tracker w = Done st w' →
  calls w' = calls w ++ [CallPrepare p rd tracker]
  ∧ dom (objects w') = dom (objects w)
  ∧ (∀ q, q ≠ p → objects w' !! q = objects w !! q).
Proof.
  unfold Evaluator.Prepare, Evaluator.CreateFnCtxs. run_step.
  destruct (objects w !! p) as [ev |] eqn:Hev; [| done]. simpl.
  destruct (CreateFnCtxs_loop_done (nodes (root_ ev)) tracker
              (mkWorld (objects w) (fragments w)
                 (calls w ++ [CallPrepare p rd tracker]) (const_evals w)))
    as (ctxs & w1 & E & Ho & Hc & _).
  rewrite E. intros [= <- <-]. simpl. rewrite Ho, Hc. simpl. repeat split.
  - apply dom_insert_valid, elem_of_dom. eauto.
  - intros q Hq. by rewrite lookup_insert_ne.
Qed.

Lemma prepare_all_inv plan state tracker : ∀ w st w',
  prepare_all plan state tracker w = Done st w' →
  dom (objects w') = dom (objects w)
  ∧ (∀ q, q ∉ map fst plan → objects w' !! q = objects w !! q)
  ∧ ∃ done, done `prefix_of` plan
            ∧ calls w' = calls w ++ map (prepare_call tracker) done.
Proof.
  induction plan as [| b plan IH]; intros w st w'; simpl.
  - unfold ret. intros [= <- <-]. repeat split; auto.
    exists []. by rewrite app_nil_r.
  - unfold RETURN_IF_ERROR, bind.
    destruct (Evaluator.Prepare (fst b) state (snd b) tracker w) as [st1 w1 |] eqn:E1;
      [| done].
    apply Evaluator_Prepare_inv in E1 as (C1 & D1 & F1).
    destruct st1 as [| msg].
    + intros H. apply IH in H as (D2 & F2 & done & Hpre & C2).
      split; [congruence |]. split.
      * intros q Hq. apply not_elem_of_cons in Hq as [Hne Hq]. rewrite F2, F1; auto.
      * exists (b :: done). split; [by apply prefix_cons |].
        rewrite C2, C1, <- app_assoc. reflexivity.
    + unfold ret. intros [= <- <-]. split; [exact D1 |]. split.
      * intros q Hq. apply not_elem_of_cons in Hq as [Hne Hq]. auto.
      * exists [b]. split; [apply prefix_cons, prefix_nil | exact C1].
Qed.

(** X5: Prepare reaches the materialization evaluators (with the flag
    set) and the lhs evaluators and nothing else: it creates and removes
    no evaluator, leaves every other evaluator (the rhs ones among them)
    as it was, and its calls are an initial part of the plan. *)
Theorem Prepare_leaves_rhs_alone this state child_row_desc output_row_desc tracker
    w st w' :
  SortExec.Prepare this state child_row_desc output_row_desc tracker w = Done st w' →
  dom (objects w') = dom (objects w)
  ∧ (∀ q, q ∉ open_targets this → objects w' !! q = objects w !! q)
  ∧ ∃ done,
      done `prefix_of` prepare_plan this child_row_desc output_row_desc
      ∧ calls w' = calls w ++ map (prepare_call tracker) done.
Proof.
  rewrite SortExec_Prepare_plan. intros H.
  apply prepare_all_inv in H as (D & F & Hcalls).
  split; [exact D |]. split; [| exact Hcalls].
  intros q Hq. apply F. intros Hin. apply Hq.
  unfold prepare_plan, open_targets in *.
  rewrite map_app in Hin. apply elem_of_app in Hin. apply elem_of_app.
  destruct Hin as [Hin | Hin]; [left | right].
  - destruct (materialize_tuple_ this); [| by apply elem_of_nil in Hin].
    rewrite map_map in Hin. simpl in Hin. by rewrite map_id in Hin.
  - rewrite map_map in Hin. simpl in Hin. by rewrite map_id in Hin.
Qed.

Lemma Prepare_leaves_rhs_alone_witness :
  objects (Examples.world_after
             (SortExec.Prepare Examples.materializing_set Examples.state0
                4%nat 5%nat 9%nat) Examples.three_evaluators) !! 1%nat
  = objects Examples.three_evaluators !! 1%nat.
Proof.
  destruct (Prepare_leaves_rhs_alone Examples.materializing_set Examples.state0
              4%nat 5%nat 9%nat Examples.three_evaluators OK
              (Examples.world_after
                 (SortExec.Prepare Examples.materializing_set Examples.state0
                    4%nat 5%nat 9%nat) Examples.three_evaluators))
    as (_ & F & _); [vm_compute; reflexivity |].
  apply F. unfold open_targets. simpl. intros Hin.
  repeat (apply elem_of_cons in Hin as [Hin | Hin]; [discriminate |]).
  by apply elem_of_nil in Hin.
Defined.

(** X6: with a non-empty rhs list, Open makes no evaluator and returns
    the expression set as it was, whatever its status; it only calls Open
    on the evaluators of the set. *)
Theorem Open_reuses_rhs this state w st this' w' :
  rhs_ordering_expr_ctxs_ this ≠ [] →
  SortExec.Open this state w = Done (st, this') w' →
  this' = this
  ∧ dom (objects w') = dom (objects w)
  ∧ ∃ cs, calls w' = calls w ++ cs
          ∧ cs `prefix_of` map CallOpen (open_targets this).
Proof.
  intros Hrhs. unfold SortExec.Open, open_targets, bind.
  set (mat := if materialize_tuple_ this then sort_tuple_slot_expr_ctxs_ this else []).
  assert (∀ st1 w1,
            (if materialize_tuple_ this
             then ExprContext.Open (sort_tuple_slot_expr_ctxs_ this) state
             else ret OK) w = Done st1 w1 →
            dom (objects w1) = dom (objects w)
            ∧ ∃ cs, calls w1 = calls w ++ cs ∧ cs `prefix_of` map CallOpen mat
                    ∧ (st1 = OK → cs = map CallOpen mat)) as Hmat.
  { intros st1 w1. subst mat. destruct (materialize_tuple_ this).
    - apply ExprContext_Open_inv.
    - unfold ret. intros [= <- <-]. split; [reflexivity |].
      exists []. by rewrite app_nil_r. }
  destruct ((if materialize_tuple_ this
             then ExprContext.Open (sort_tuple_slot_expr_ctxs_ this) state
             else ret OK) w) as [st1 w1 |] eqn:E1; [| done].
  destruct (Hmat _ _ eq_refl) as (D1 & cs1 & C1 & P1 & K1). clear Hmat.
  destruct st1 as [| msg1].
  2:{ unfold ret. intros [= <- <- <-]. repeat split; auto.
      exists cs1. split; [exact C1 |]. rewrite map_app. by apply prefix_app_r. }
  rewrite (K1 eq_refl) in C1. clear K1 P1 cs1.
  destruct (ExprContext.Open (lhs_ordering_expr_ctxs_ this) state w1)
    as [st2 w2 |] eqn:E2; [| done].
  apply ExprContext_Open_inv in E2 as (D2 & cs2 & C2 & P2 & K2).
  assert (calls w2 = calls w ++ (map CallOpen mat ++ cs2)
          ∧ (map CallOpen mat ++ cs2)
              `prefix_of` map CallOpen (mat ++ lhs_ordering_expr_ctxs_ this)) as [C P].
  { split; [rewrite C2, C1, <- app_assoc; reflexivity |].
    rewrite map_app. by apply prefix_app. }
  destruct st2 as [| msg2].
  2:{ unfold ret. intros [= <- <- <-]. split; [reflexivity |].
      split; [congruence |]. eauto. }
  unfold ExprContext.CloneIfNotExists.
  destruct (rhs_ordering_expr_ctxs_ this) as [| r0 rhs] eqn:Er; [done |].
  unfold ret. intros [= <- <- <-]. split.
  { destruct this. simpl in *. by rewrite Er. }
  split; [congruence |]. eauto.
Qed.

Lemma Open_reuses_rhs_witness :
  dom (objects (Examples.world_after
                  (SortExec.Open Examples.materializing_set Examples.state0)
                  Examples.three_evaluators))
  = dom (objects Examples.three_evaluators).
Proof.
  destruct (Open_reuses_rhs Examples.materializing_set Examples.state0
              Examples.three_evaluators OK Examples.materializing_set
              (Examples.world_after
                 (SortExec.Open Examples.materializing_set Examples.state0)
                 Examples.three_evaluators)) as (_ & D & _).
  - discriminate.
  - vm_compute. reflexivity.
  - exact D.
Defined.

(** X7: once Open has returned OK, Open again returns OK, keeps the
    expression set (no second set of clones), and changes nothing but the
    record of its calls to the evaluators' Open. *)
Theorem Open_twice this state w this1 w1 :
  SortExec.Open this state w = Done (OK, this1) w1 →
  SortExec.Open this1 state w1
  = Done (OK, this1) (record_all (map CallOpen (open_targets this)) w1).
Proof.
  unfold SortExec.Open at 1. unfold bind.
  set (mat := if materialize_tuple_ this then sort_tuple_slot_expr_ctxs_ this else []).
  destruct ((if materialize_tuple_ this
             then ExprContext.Open (sort_tuple_slot_expr_ctxs_ this) state
             else ret OK) w) as [[| msg1] wA |] eqn:EA; [| unfold ret; done | done].
  assert (Forall (opened_at wA) mat) as HA.
  { subst mat. destruct (materialize_tuple_ this); [| constructor].
    by apply ExprContext_Open_opened in EA as [_ H]; auto. }
  destruct (ExprContext.Open (lhs_ordering_expr_ctxs_ this) state wA)
    as [[| msg2] wB |] eqn:EB; [| unfold ret; done | done].
  apply ExprContext_Open_opened in EB as [PB HB]. specialize (HB eq_refl).
  destruct (ExprContext.CloneIfNotExists (lhs_ordering_expr_ctxs_ this) state
              (rhs_ordering_expr_ctxs_ this) wB) as [[[| msg3] rhs'] wC |] eqn:EC;
    [| unfold ret; done | done].
  apply CloneIfNotExists_inv in EC as (Hkeep & XC & cs3 & _ & _ & KC).
  destruct (KC eq_refl) as [_ Hclones]. clear KC.
  unfold ret. intros [= <- <-].
  assert (Forall (opened_at wC) mat) as HmC.
  { eapply Forall_impl; [exact HA |]. intros q Hq. eapply opened_at_extends; eauto. }
  assert (Forall (opened_at wC) (lhs_ordering_expr_ctxs_ this)) as HlC.
  { eapply Forall_impl; [exact HB |]. intros q Hq. eapply opened_at_extends; eauto. }
  unfold SortExec.Open, bind. simpl.
  assert ((if materialize_tuple_ this
           then ExprContext.Open (sort_tuple_slot_expr_ctxs_ this) state
           else ret OK) wC = Done OK (record_all (map CallOpen mat) wC)) as ->.
  { subst mat. destruct (materialize_tuple_ this).
    - by apply ExprContext_Open_noop.
    - unfold ret. by rewrite record_all_nil. }
  rewrite ExprContext_Open_noop by exact HlC.
  rewrite record_all_record_all, <- map_app. fold (open_targets this).
  unfold ExprContext.CloneIfNotExists.
  destruct rhs' as [| r0 rhs'].
  - destruct (rhs_ordering_expr_ctxs_ this) as [| r1 rhs] eqn:Er.
    + specialize (Hclones eq_refl). inversion Hclones as [Hl |]. simpl.
      unfold open_targets. fold mat. rewrite <- Hl. reflexivity.
    + by specialize (Hkeep ltac:(done)).
  - reflexivity.
Qed.

Lemma Open_twice_witness :
  SortExec.Open (mkSortExecExprs [0%nat] [3%nat] [2%nat] true) Examples.state0
    Examples.opened_world
  = Done (OK, mkSortExecExprs [0%nat] [3%nat] [2%nat] true)
      (record_all [CallOpen 2; CallOpen 0] Examples.opened_world).
Proof.
  apply (Open_twice Examples.cloning_set Examples.state0 Examples.three_evaluators).
  vm_compute. reflexivity.
Defined.

Lemma Evaluator_Close_closed p state w w' :
  Evaluator.Close p state w = Done tt w' →
  closed_at w' p ∧ ∀ q, closed_at w q → closed_at w' q.
Proof.
  unfold Evaluator.Close, closed_at. run_step.
  destruct (objects w !! p) as [ev |] eqn:Hev; [| done]. simpl.
  destruct (closed_ ev) eqn:Hcl.
  - intros [= <-]. simpl. eauto.
  - assert (∀ (m : gmap nat ScalarExprEvaluator) q,
              (∃ e, m !! q = Some e ∧ closed_ e = true) →
              ∃ e, <[p := Evaluator.set_closed ev (map Evaluator.release_context (fn_ctxs_ ev))]> m
                     !! q = Some e ∧ closed_ e = true) as Hpersist.
    { intros m q (e & He & Hc). destruct (decide (p = q)) as [<- | Hne].
      - rewrite lookup_insert_eq. eauto.
      - rewrite lookup_insert_ne by exact Hne. eauto. }
    destruct (is_clone_ ev); simpl; intros [= <-]; simpl;
      (split; [rewrite lookup_insert_eq; eauto | intros q; apply Hpersist]).
Qed.

Lemma ExprContext_Close_closed ctxs state : ∀ w w',
  ExprContext.Close ctxs state w = Done tt w' →
  Forall (closed_at w') ctxs ∧ ∀ q, closed_at w q → closed_at w' q.
Proof.
  induction ctxs as [| p ctxs IH]; intros w w'; simpl.
  - unfold ret. intros [= <-]. auto.
  - unfold bind. destruct (Evaluator.Close p state w) as [[] w1 |] eqn:E1; [| done].
    apply Evaluator_Close_closed in E1 as [Hp P1].
    intros H. apply IH in H as [Hall P2]. split; [| auto].
    constructor; auto.
Qed.

Lemma ExprContext_Close_noop ctxs state : ∀ w,
  Forall (closed_at w) ctxs →
  ExprContext.Close ctxs state w = Done tt (record_all (map CallClose ctxs) w).
Proof.
  induction ctxs as [| p ctxs IH]; intros w Hall; simpl.
  - unfold ret. by rewrite record_all_nil.
  - inversion Hall as [| ? ? (ev & Hev & Hcl) Hrest]; subst.
    unfold bind, Evaluator.Close. run_step. rewrite Hev. simpl. rewrite Hcl.
    change (mkWorld (objects w) (fragments w) (calls w ++ [CallClose p]) (const_evals w))
      with (record_all [CallClose p] w).
    rewrite IH by exact Hrest. by rewrite record_all_record_all.
Qed.

(** The three stages of Close, when it completes. *)
Lemma SortExec_Close_stages this state w w' :
  SortExec.Close this state w = Done tt w' →
  ∃ w1 w2,
    ExprContext.Close
      (if materialize_tuple_ this then sort_tuple_slot_expr_ctxs_ this else [])
      state w = Done tt w1
    ∧ ExprContext.Close (rhs_ordering_expr_ctxs_ this) state w1 = Done tt w2
    ∧ ExprContext.Close (lhs_ordering_expr_ctxs_ this) state w2 = Done tt w'.
Proof.
  unfold SortExec.Close, bind.
  destruct (materialize_tuple_ this).
  - destruct (ExprContext.Close (sort_tuple_slot_expr_ctxs_ this) state w)
      as [[] w1 |]; [| done].
    destruct (ExprContext.Close (rhs_ordering_expr_ctxs_ this) state w1)
      as [[] w2 |] eqn:E2; [| done].
    intros E3. eauto.
  - simpl. unfold ret at 1.
    destruct (ExprContext.Close (rhs_ordering_expr_ctxs_ this) state w)
      as [[] w2 |] eqn:E2; [| done].
    intros E3. exists w, w2. auto.
Qed.

(** X9: a completed Close leaves every evaluator of the set (the
    materialization ones only with the flag set) closed, creates and
    removes no evaluator, touches no evaluator outside the set, and
    reopens nothing that was closed. *)
Theorem Close_closes_all this state w w' :
  SortExec.Close this state w = Done tt w' →
  Forall (closed_at w') (close_sequence this)
  ∧ dom (objects w') = dom (objects w)
  ∧ (∀ q, q ∉ close_sequence this → objects w' !! q = objects w !! q)
  ∧ (∀ q, closed_at w q → closed_at w' q).
Proof.
  intros H. apply SortExec_Close_stages in H as (w1 & w2 & E1 & E2 & E3).
  pose proof (ExprContext_Close_closed _ _ _ _ E1) as [A1 P1].
  pose proof (ExprContext_Close_closed _ _ _ _ E2) as [A2 P2].
  pose proof (ExprContext_Close_closed _ _ _ _ E3) as [A3 P3].
  apply ExprContext_Close_inv in E1 as (_ & D1 & F1).
  apply ExprContext_Close_inv in E2 as (_ & D2 & F2).
  apply ExprContext_Close_inv in E3 as (_ & D3 & F3).
  unfold close_sequence. split; [| split; [| split]].
  - apply Forall_app. split; [| apply Forall_app; split].
    + eapply Forall_impl; [exact A1 |]. auto.
    + eapply Forall_impl; [exact A2 |]. auto.
    + exact A3.
  - congruence.
  - intros q Hq. apply not_elem_of_app in Hq as [Hm Hq].
    apply not_elem_of_app in Hq as [Hr Hl]. rewrite F3, F2, F1; auto.
  - auto.
Qed.

Lemma Close_closes_all_witness :
  Forall (closed_at (Examples.world_after
                       (SortExec.Close Examples.materializing_set Examples.state0)
                       Examples.three_evaluators))
    [2%nat; 1%nat; 0%nat].
Proof.
  apply (Close_closes_all Examples.materializing_set Examples.state0
           Examples.three_evaluators).
  vm_compute. reflexivity.
Defined.

(** X10: Close after a completed Close completes too and changes
    nothing but the record of its calls. *)
Theorem Close_twice this state w w1 :
  SortExec.Close this state w = Done tt w1 →
  SortExec.Close this state w1
  = Done tt (record_all (map CallClose (close_sequence this)) w1).
Proof.
  intros H. apply SortExec_Close_stages in H as (wa & wb & E1 & E2 & E3).
  pose proof (ExprContext_Close_closed _ _ _ _ E1) as [A1 P1].
  pose proof (ExprContext_Close_closed _ _ _ _ E2) as [A2 P2].
  pose proof (ExprContext_Close_closed _ _ _ _ E3) as [A3 P3].
  assert (Forall (closed_at w1)
            (if materialize_tuple_ this then sort_tuple_slot_expr_ctxs_ this else []))
    as Hm by (eapply Forall_impl; [exact A1 |]; auto).
  assert (Forall (closed_at w1) (rhs_ordering_expr_ctxs_ this))
    as Hr by (eapply Forall_impl; [exact A2 |]; auto).
  unfold SortExec.Close, close_sequence, bind.
  assert ((if materialize_tuple_ this
           then ExprContext.Close (sort_tuple_slot_expr_ctxs_ this) state
           else ret tt) w1
          = Done tt (record_all
                       (map CallClose
                          (if materialize_tuple_ this
                           then sort_tuple_slot_expr_ctxs_ this else [])) w1)) as ->.
  { destruct (materialize_tuple_ this).
    - by apply ExprContext_Close_noop.
    - unfold ret. by rewrite record_all_nil. }
  rewrite ExprContext_Close_noop by exact Hr.
  rewrite ExprContext_Close_noop by exact A3.
  by rewrite !record_all_record_all, !map_app.
Qed.

Lemma Close_twice_witness :
  SortExec.Close Examples.materializing_set Examples.state0
    (Examples.world_after
       (SortExec.Close Examples.materializing_set Examples.state0)
       Examples.three_evaluators)
  = Done tt
      (record_all [CallClose 2; CallClose 1; CallClose 0]
         (Examples.world_after
            (SortExec.Close Examples.materializing_set Examples.state0)
            Examples.three_evaluators)).
Proof.
  apply (Close_twice Examples.materializing_set Examples.state0
           Examples.three_evaluators).
  vm_compute. reflexivity.
Defined.

Lemma SortExec_Close_done this state w :
  Forall (valid w) (close_sequence this) →
  ∃ w', SortExec.Close this state w = Done tt w'.
Proof.
  unfold close_sequence, SortExec.Close, bind. intros Hv.
  apply Forall_app in Hv as [Hm Hv]. apply Forall_app in Hv as [Hr Hl].
  assert (∃ w1, (if materialize_tuple_ this
                 then ExprContext.Close (sort_tuple_slot_expr_ctxs_ this) state
                 else ret tt) w = Done tt w1
                ∧ dom (objects w1) = dom (objects w)) as (w1 & E1 & D1).
  { destruct (materialize_tuple_ this).
    - destruct (ExprContext_Close_done state _ w Hm) as (w1 & E & _ & D). eauto.
    - unfold ret. eauto. }
  rewrite E1.
  destruct (ExprContext_Close_done state (rhs_ordering_expr_ctxs_ this) w1)
    as (w2 & E2 & _ & D2).
  { eapply Forall_impl; [exact Hr |]. intros q Hq. unfold valid in *. by rewrite D1. }
  rewrite E2.
  destruct (ExprContext_Close_done state (lhs_ordering_expr_ctxs_ this) w2)
    as (w3 & E3 & _); [| eauto].
  eapply Forall_impl; [exact Hl |]. intros q Hq. unfold valid in *. by rewrite D2, D1.
Qed.

(** X8: after an Open that returned OK, Close completes: the evaluators
    Open opened and the clones it made are live (an rhs list supplied
    from outside has to be live itself). *)
Theorem Open_then_Close this state w this' w' :
  SortExec.Open this state w = Done (OK, this') w' →
  Forall (valid w) (rhs_ordering_expr_ctxs_ this) →
  ∃ w'', SortExec.Close this' state w' = Done tt w''.
Proof.
  unfold SortExec.Open. unfold bind. intros H Hrhs.
  set (mat := if materialize_tuple_ this then sort_tuple_slot_expr_ctxs_ this else [])
    in *.
  destruct ((if materialize_tuple_ this
             then ExprContext.Open (sort_tuple_slot_expr_ctxs_ this) state
             else ret OK) w) as [[| msg1] wA |] eqn:EA; [| unfold ret in H; done | done].
  assert (Forall (opened_at wA) mat ∧ dom (objects wA) = dom (objects w)) as [HA DA].
  { subst mat. destruct (materialize_tuple_ this).
    - pose proof (ExprContext_Open_opened _ _ _ _ _ EA) as [_ Hall].
      apply ExprContext_Open_inv in EA as [D _]. auto.
    - unfold ret in EA. injection EA as <-. split; [constructor | reflexivity]. }
  destruct (ExprContext.Open (lhs_ordering_expr_ctxs_ this) state wA)
    as [[| msg2] wB |] eqn:EB; [| unfold ret in H; done | done].
  pose proof (ExprContext_Open_opened _ _ _ _ _ EB) as [PB HB]. specialize (HB eq_refl).
  apply ExprContext_Open_inv in EB as [DB _].
  destruct (ExprContext.CloneIfNotExists (lhs_ordering_expr_ctxs_ this) state
              (rhs_ordering_expr_ctxs_ this) wB) as [[[| msg3] rhs'] wC |] eqn:EC;
    [| unfold ret in H; done | done].
  apply CloneIfNotExists_inv in EC as (Hkeep & XC & cs3 & _ & _ & KC).
  destruct (KC eq_refl) as [_ Hclones]. clear KC.
  unfold ret in H. injection H as <- <-.
  apply SortExec_Close_done. unfold close_sequence. simpl. fold mat.
  apply Forall_app. split; [| apply Forall_app; split].
  - eapply Forall_impl; [exact HA |]. intros q Hq.
    apply opened_at_valid. eapply opened_at_extends; eauto.
  - destruct (rhs_ordering_expr_ctxs_ this) as [| r0 rhs] eqn:Er.
    + specialize (Hclones eq_refl). clear -Hclones.
      induction Hclones as [| p q ps qs (_ & ev & _ & _ & Hq) _ IH]; constructor; auto.
      apply valid_lookup. eauto.
    + rewrite Hkeep by done.
      eapply Forall_impl; [exact Hrhs |]. intros q Hq. unfold valid in Hq.
      rewrite <- DA, <- DB in Hq. apply elem_of_dom in Hq as [ev Hev].
      apply valid_lookup. eauto.
  - eapply Forall_impl; [exact HB |]. intros q Hq.
    apply opened_at_valid. eapply opened_at_extends; eauto.
Qed.

Lemma Open_then_Close_witness :
  ∃ w'', SortExec.Close (mkSortExecExprs [0%nat] [3%nat] [2%nat] true)
           Examples.state0 Examples.opened_world = Done tt w''.
Proof.
  apply (Open_then_Close Examples.cloning_set Examples.state0
           Examples.three_evaluators).
  - vm_compute. reflexivity.
  - constructor.
Defined.

Lemma ExprContext_Create_live exprs ctxs w r w' :
  ExprContext.Create exprs ctxs w = Done r w' →
  Forall (valid w) ctxs →
  Forall (valid w') r ∧ extends w w'.
Proof.
  intros H Hv.
  destruct (ExprContext_Create_done exprs ctxs w) as (ps & w2 & E & X & F & _).
  rewrite E in H. injection H as <- <-. split; [| exact X].
  apply Forall_app. split.
  - eapply Forall_impl; [exact Hv |]. intros q Hq.
    apply valid_lookup in Hq as [ev Hev]. apply valid_lookup. eauto.
  - clear -F. induction F as [| e p es ps [_ Hs] _ IH]; constructor; auto.
    apply valid_lookup. eauto.
Qed.

Section InitThenPrepare.

Context {TExpr : Type}.
Variable CreateExprTrees : list TExpr → Status * list ScalarExpr.

(** X4: the evaluators Init builds are live, so on an expression set
    whose lists were live Prepare after Init completes with a status,
    also after an Init that failed half way. *)
Theorem Init_then_Prepare sort_info this w st this' w' state child_row_desc
    output_row_desc tracker :
  Forall (valid w) (lhs_ordering_expr_ctxs_ this ++ sort_tuple_slot_expr_ctxs_ this) →
  SortExec.Init TExpr CreateExprTrees sort_info this w = Done (st, this') w' →
  ∃ st' w'', SortExec.Prepare this' state child_row_desc output_row_desc tracker w'
             = Done st' w''.
Proof.
  intros Hv H.
  apply Forall_app in Hv as [Hl Hm].
  assert (Forall (valid w') (lhs_ordering_expr_ctxs_ this')
          ∧ Forall (valid w') (sort_tuple_slot_expr_ctxs_ this')) as [Hl' Hm'].
  { revert H. unfold SortExec.Init, SortExec.Init_exprs.
    destruct (CreateExprTrees (SortExec.ordering_exprs TExpr sort_info))
      as [[| msg0] exprs].
    2:{ unfold ret. intros [= <- <- <-]. auto. }
    unfold bind.
    destruct (ExprContext.Create exprs (lhs_ordering_expr_ctxs_ this) w)
      as [lhs w1 |] eqn:E1; [| done].
    destruct (ExprContext_Create_live _ _ _ _ _ E1 Hl) as [Hl1 X1].
    assert (Forall (valid w1) (sort_tuple_slot_expr_ctxs_ this)) as Hm1.
    { eapply Forall_impl; [exact Hm |]. intros q Hq.
      apply valid_lookup in Hq as [ev Hev]. apply valid_lookup. eauto. }
    destruct (SortExec.sort_tuple_slot_exprs TExpr sort_info) as [t |]; simpl.
    - destruct (CreateExprTrees t) as [[| msg1] mexprs].
      + destruct (ExprContext.Create mexprs (sort_tuple_slot_expr_ctxs_ this) w1)
          as [mat w2 |] eqn:E2; [| done].
        destruct (ExprContext_Create_live _ _ _ _ _ E2 Hm1) as [Hm2 X2].
        unfold ret. intros [= <- <- <-]. simpl. split; [| exact Hm2].
        eapply Forall_impl; [exact Hl1 |]. intros q Hq.
        apply valid_lookup in Hq as [ev Hev]. apply valid_lookup. eauto.
      + unfold ret. intros [= <- <- <-]. simpl. auto.
    - unfold ret. intros [= <- <- <-]. simpl. auto. }
  destruct (prepare_all_spec (prepare_plan this' child_row_desc output_row_desc)
              state tracker w') as (st' & w'' & E & _).
  { unfold prepare_plan. apply Forall_app. split.
    - destruct (materialize_tuple_ this'); [| constructor].
      apply Forall_map. exact Hm'.
    - apply Forall_map. exact Hl'. }
  exists st', w''. by rewrite SortExec_Prepare_plan.
Qed.

End InitThenPrepare.

Lemma Init_then_Prepare_witness :
  ∃ st' w'',
    SortExec.Prepare (mkSortExecExprs [0%nat] [] [] true) Examples.state0
      4%nat 5%nat 9%nat Examples.half_initialised_world = Done st' w''.
Proof.
  apply (Init_then_Prepare Examples.deserialise
           (SortExec.mkTSortInfo _ [Some (Examples.slot_ref 0)] (Some [None]))
           Examples.fresh_set Examples.empty_world (Error "malformed expression")).
  - constructor.
  - vm_compute. reflexivity.
Defined.

(* ===================================================================== *)
(** ** ConditionVariable                                                 *)
(* ===================================================================== *)

Section ConditionVariableFacts.

Import ConditionVariable.

Lemma enter_wait_counts k t s s' :
  counts_waiters s → inside s !! t = None →
  enter_wait k t s = Some s' → counts_waiters s'.
Proof.
  intros (Hn & Hh & Ho) Ht. unfold enter_wait.
  destruct (decide (mutex_owner s = Some t)) as [Hm |]; [| done].
  destruct (decide (num_waiters_ s = INT_MAX)); [done |].
  intros [= <-]. split; [| split]; simpl.
  - rewrite map_size_insert_None by exact Ht. lia.
  - intros t' pos Hl Hb. destruct (decide (t' = t)) as [-> | Hne]; [exact Hm |].
    rewrite lookup_insert_ne in Hl by done. eauto.
  - intros t' pos Hl Hm'. destruct (decide (t' = t)) as [-> | Hne].
    + rewrite lookup_insert_eq in Hl. by injection Hl as <-.
    + congruence.
Qed.

Lemma call_pthread_counts k t s s' :
  counts_waiters s → call_pthread k t s = Some s' → counts_waiters s'.
Proof.
  intros (Hn & Hh & Ho). unfold call_pthread.
  destruct (inside s !! t) as [[k' | |] |] eqn:Ht; try done.
  destruct (decide (k' = k)) as [-> |]; [| done].
  intros [= <-]. split; [| split]; simpl.
  - rewrite map_size_insert_Some by eauto. exact Hn.
  - intros t' pos Hl Hb. destruct (decide (t' = t)) as [-> | Hne].
    + rewrite lookup_insert_eq in Hl. by injection Hl as <-.
    + rewrite lookup_insert_ne in Hl by done.
      pose proof (Hh t' pos Hl Hb). pose proof (Hh t (Counted k) Ht eq_refl).
      congruence.
  - done.
Qed.

Lemma return_pthread_counts k t rc s s' :
  counts_waiters s → return_pthread k t rc s = Some s' → counts_waiters s'.
Proof.
  intros (Hn & Hh & Ho). unfold return_pthread.
  destruct (inside s !! t) as [[| k' |] |] eqn:Ht; try done.
  destruct (mutex_owner s) eqn:Hm; [done |].
  destruct (decide (k' = k)) as [-> |]; [| done].
  intros [= <-]. split; [| split]; simpl.
  - rewrite map_size_insert_Some by eauto. exact Hn.
  - intros t' pos Hl Hb. destruct (decide (t' = t)) as [-> | Hne]; [done |].
    rewrite lookup_insert_ne in Hl by done.
    by pose proof (Hh t' pos Hl Hb).
  - intros t' pos Hl [= ->]. rewrite lookup_insert_eq in Hl. by injection Hl as <-.
Qed.

Lemma leave_wait_counts k t s s' notified :
  counts_waiters s → leave_wait k t s = Some (s', notified) → counts_waiters s'.
Proof.
  intros (Hn & Hh & Ho). unfold leave_wait.
  destruct (inside s !! t) as [[| | k' rc] |] eqn:Ht; try done.
  destruct (decide (k' = k)) as [-> |]; [| done].
  destruct (decide (num_waiters_ s = INT_MIN)); [done |].
  intros [= <- _]. split; [| split]; simpl.
  - pose proof (map_size_delete_Some t (inside s) (mk_is_Some _ _ Ht)) as Hs.
    assert (size (inside s) ≠ 0%nat)
      by (intros Hz; apply map_size_empty_inv in Hz; by rewrite Hz in Ht).
    lia.
  - intros t' pos Hl Hb. apply lookup_delete_Some in Hl as [_ Hl]. eauto.
  - intros t' pos Hl Hm. apply lookup_delete_Some in Hl as [_ Hl]. eauto.
Qed.

Lemma step_counts_waiters e s s' :
  counts_waiters s → step e s = Some s' → counts_waiters s'.
Proof.
  intros Hs. pose proof Hs as (Hn & Hh & Ho).
  destruct e as [t | t | t | t | t rc | t | t | t | t rc | t | | |]; simpl.
  - destruct (mutex_owner s) eqn:Hm; [done |].
    destruct (inside s !! t) eqn:Hb; [done |].
    intros [= <-]. split; [| split]; simpl; [exact Hn | |].
    + intros t' pos Hl Hb'. by pose proof (Hh t' pos Hl Hb').
    + intros t' pos Hl [= ->]. congruence.
  - destruct (inside s !! t) eqn:Hb; [done |].
    destruct (decide (mutex_owner s = Some t)) as [Hm |]; [| done].
    intros [= <-]. split; [| split]; simpl; [exact Hn | | done].
    intros t' pos Hl Hb'. pose proof (Hh t' pos Hl Hb'). congruence.
  - destruct (inside s !! t) eqn:Hb; [done |]. by apply enter_wait_counts.
  - by apply call_pthread_counts.
  - by apply return_pthread_counts.
  - unfold Wait_decrement. destruct (leave_wait InWait t s) as [[s1 b] |] eqn:E; [| done].
    simpl. intros [= <-]. by eapply leave_wait_counts.
  - destruct (inside s !! t) eqn:Hb; [done |]. by apply enter_wait_counts.
  - by apply call_pthread_counts.
  - by apply return_pthread_counts.
  - unfold TimedWait_decrement.
    destruct (leave_wait InTimedWait t s) as [[s1 b] |] eqn:E; [| done].
    simpl. intros [= <-]. by eapply leave_wait_counts.
  - by intros [= <-].
  - by intros [= <-].
  - intros [= <-]. unfold NotifyOneIfWaiting.
    by destruct (0 <? num_waiters_ s).
Qed.

Lemma run_counts_waiters es : ∀ s s',
  counts_waiters s → run es s = Some s' → counts_waiters s'.
Proof.
  induction es as [| e es IH]; intros s s' Hs; simpl.
  - by intros [= <-].
  - destruct (step e s) as [s1 |] eqn:E; [| done].
    apply IH. eapply step_counts_waiters; eauto.
Qed.

Lemma new_counts_waiters : counts_waiters new.
Proof.
  split; [reflexivity |].
  split; intros t pos Hl; unfold new in Hl; simpl in Hl; by rewrite lookup_empty in Hl.
Qed.

(** The blocked threads are the threads executing a wait, but for the
    owner of the mutex. *)
Lemma blocked_inside s :
  counts_waiters s →
  blocked s = match mutex_owner s with
              | Some t => delete t (inside s)
              | None => inside s
              end.
Proof.
  intros (_ & Hh & Ho). unfold blocked. apply map_eq. intros t'.
  destruct (inside s !! t') as [pos |] eqn:Hl.
  - destruct (is_blocked pos) eqn:Hb.
    + transitivity (Some pos).
      { apply map_lookup_filter_Some. auto. }
      symmetry. destruct (mutex_owner s) as [t |] eqn:Hm; [| exact Hl].
      apply lookup_delete_Some. split; [| exact Hl].
      intros ->. pose proof (Ho t' pos Hl eq_refl). congruence.
    + pose proof (Hh t' pos Hl Hb) as Hm. rewrite Hm.
      rewrite lookup_delete_eq. apply map_lookup_filter_None. right.
      intros pos' Hl'. simpl. congruence.
  - transitivity (@None Position).
    { apply map_lookup_filter_None. by left. }
    symmetry. destruct (mutex_owner s) as [t |]; [| exact Hl].
    apply lookup_delete_None. by right.
Qed.

Lemma size_inside s :
  counts_waiters s →
  size (inside s) = (size (blocked s) + if owner_inside s then 1 else 0)%nat.
Proof.
  intros Hs. rewrite (blocked_inside s Hs). unfold owner_inside.
  destruct (mutex_owner s) as [t |]; [| lia].
  destruct (inside s !! t) as [pos |] eqn:Ht.
  - pose proof (map_size_delete_Some t (inside s) (mk_is_Some _ _ Ht)) as H.
    assert (size (inside s) ≠ 0%nat)
      by (intros Hz; apply map_size_empty_inv in Hz; by rewrite Hz in Ht).
    lia.
  - rewrite delete_id by exact Ht. lia.
Qed.

(** X11: in every state the object reaches from its constructor, however
    the statements of the waits interleave with the calls of the other
    threads, [num_waiters_] is the number of threads executing Wait or
    TimedWait between their [++num_waiters_] and their [--num_waiters_]:
    the threads blocked in the pthread call, and one more while the owner
    of the mutex is such a thread (about to block, or just woken).  A
    thread executing a wait owns the mutex exactly when it is not
    blocked. *)
Theorem num_waiters_counts_threads_inside es s :
  run es new = Some s →
  num_waiters_ s = Z.of_nat (size (inside s))
  ∧ num_waiters_ s
    = Z.of_nat (size (blocked s)) + (if owner_inside s then 1 else 0)
  ∧ (∀ t pos, inside s !! t = Some pos →
       if is_blocked pos then mutex_owner s ≠ Some t else mutex_owner s = Some t)
  ∧ (owner_inside s = false → num_waiters_ s = Z.of_nat (size (blocked s))).
Proof.
  intros H. pose proof (run_counts_waiters es new s new_counts_waiters H) as Hs.
  pose proof Hs as (Hn & Hh & Ho). pose proof (size_inside s Hs) as Hsz.
  split; [exact Hn |]. split; [| split].
  - rewrite Hn, Hsz. destruct (owner_inside s); lia.
  - intros t pos Hl. destruct (is_blocked pos) eqn:Hb; [| eauto].
    intros Hm. pose proof (Ho t pos Hl Hm). congruence.
  - intros Hnone. rewrite Hn, Hsz, Hnone. lia.
Qed.

Lemma num_waiters_counts_threads_inside_witness :
  ∃ s, run [Lock 1%nat; WaitIncrement 1%nat; WaitCall 1%nat; Lock 2%nat;
            TimedWaitIncrement 2%nat] new = Some s
       ∧ num_waiters_ s = 2
       ∧ size (blocked s) = 1%nat.
Proof.
  eexists. split; [vm_compute; reflexivity |].
  match goal with
  | |- num_waiters_ ?s = _ ∧ _ =>
    destruct (num_waiters_counts_threads_inside
                [Lock 1%nat; WaitIncrement 1%nat; WaitCall 1%nat; Lock 2%nat;
                 TimedWaitIncrement 2%nat] s) as (H & _); [vm_compute; reflexivity |]
  end.
  split; [rewrite H |]; vm_compute; reflexivity.
Defined.

(** X12: in every reachable state NotifyOneIfWaiting signals exactly when
    some thread is between the increment and the decrement of a wait, and
    otherwise does nothing.  So it signals whenever a thread is blocked;
    it can also signal with no thread blocked, while a thread is about to
    block or has just woken; and when the owner of the mutex is not
    executing a wait (or the mutex is free) it signals exactly when some
    thread is blocked. *)
Theorem NotifyOneIfWaiting_signals_iff_inside es s :
  run es new = Some s →
  NotifyOneIfWaiting s = (if decide (inside s = ∅) then s else NotifyOne s)
  ∧ (blocked s ≠ ∅ → NotifyOneIfWaiting s = NotifyOne s)
  ∧ (owner_inside s = false →
     NotifyOneIfWaiting s = if decide (blocked s = ∅) then s else NotifyOne s).
Proof.
  intros H. pose proof (run_counts_waiters es new s new_counts_waiters H) as Hs.
  pose proof Hs as (Hn & _). pose proof (blocked_inside s Hs) as Hb.
  assert (NotifyOneIfWaiting s = if decide (inside s = ∅) then s else NotifyOne s) as Hi.
  { unfold NotifyOneIfWaiting. rewrite Hn.
    destruct (decide (inside s = ∅)) as [He | Hne].
    - rewrite He, map_size_empty. reflexivity.
    - assert (size (inside s) ≠ 0%nat) as Hsz
        by (intros Hz; by apply map_size_empty_inv in Hz).
      destruct (Z.ltb_spec 0 (Z.of_nat (size (inside s)))); [reflexivity | lia]. }
  split; [exact Hi |]. split.
  - intros Hne. rewrite Hi. destruct (decide (inside s = ∅)) as [He |]; [| reflexivity].
    exfalso. apply Hne. unfold blocked. rewrite He. apply map_filter_empty.
  - intros Hnone. assert (blocked s = inside s) as ->; [| exact Hi].
    rewrite Hb. unfold owner_inside in Hnone.
    destruct (mutex_owner s) as [t |]; [| reflexivity].
    destruct (inside s !! t) eqn:Ht; [done |]. by apply delete_id.
Qed.

Lemma NotifyOneIfWaiting_signals_iff_inside_witness :
  ∃ s, run [Lock 1%nat; WaitIncrement 1%nat] new = Some s
       ∧ blocked s = ∅
       ∧ NotifyOneIfWaiting s = NotifyOne s
       ∧ NotifyOneIfWaiting new = new.
Proof.
  eexists. split; [vm_compute; reflexivity |].
  split; [vm_compute; reflexivity |]. split.
  - match goal with
    | |- NotifyOneIfWaiting ?s = _ =>
      destruct (NotifyOneIfWaiting_signals_iff_inside [Lock 1%nat; WaitIncrement 1%nat] s)
        as (H & _); [vm_compute; reflexivity |]
    end.
    rewrite H. vm_compute. reflexivity.
  - destruct (NotifyOneIfWaiting_signals_iff_inside [] new) as (_ & _ & H); [reflexivity |].
    rewrite H; vm_compute; reflexivity.
Defined.

End ConditionVariableFacts.
